(** * accessmate: obstacle-weighted routing over a street graph

    A shallow embedding of [create_graph.py] (attribute enrichment and
    node-link serialisation) and [find_route.py] (weight calculator and
    route planner), with the properties of the specification proved or
    refuted on it.

    Conventions of the embedding:
    - a Python number (int or float) is an exact rational [Q]; the
      rounding of IEEE doubles is not modelled;
    - a Python dict used as an attribute map is a [gmap string value];
    - a call that raises is a result [None]; where the source catches the
      exception inside a loop, the state reached so far is kept;
    - the geometric look-ups of osmnx ([nearest_edges], [nearest_nodes])
      are parameters of the development. *)

From Stdlib Require Import QArith Qabs Qround Lqa ZArith String Ascii List.
From Stdlib Require Import DecimalString.
From stdpp Require Import gmap strings list fin_maps.

Local Open Scope Z_scope.

(** ** Python values *)

(** The values an attribute can hold once a graph has been through JSON:
    [None], booleans, numbers, strings, lists and string-keyed dicts. *)
Local Unset Elimination Schemes.
Inductive value : Type :=
  | VNone : value
  | VBool : bool -> value
  | VNum : Q -> value
  | VStr : string -> value
  | VList : list value -> value
  | VDict : list (string * value) -> value.
Local Set Elimination Schemes.

Abbreviation attrs := (gmap string value).

(** Reading a value as a number; anything else is a [TypeError] in the
    arithmetic and comparisons of the source. *)
Definition as_num (v : value) : option Q :=
  match v with
  | VNum q => Some q
  | _ => None
  end.

(** [v == s] for a string literal [s]. *)
Definition is_str (v : option value) (s : string) : bool :=
  match v with
  | Some (VStr t) => String.eqb t s
  | _ => false
  end.

(** [d.get(k, dflt)] read as a number. *)
Definition get_num (d : attrs) (k : string) (dflt : Q) : option Q :=
  match d !! k with
  | None => Some dflt
  | Some v => as_num v
  end.

(** Lookup in a dict value (an association list, first binding wins). *)
Fixpoint assoc_get (l : list (string * value)) (k : string) : option value :=
  match l with
  | [] => None
  | (k', v) :: r => if String.eqb k' k then Some v else assoc_get r k
  end.

(** ** Rational helpers *)

Definition Qlt_bool (a b : Q) : bool := negb (Qle_bool b a).

(** Python's [/] on numbers: division by zero raises. *)
Definition py_div (a b : Q) : option Q :=
  if Qeq_bool b 0 then None else Some (a / b)%Q.

(** Python's [int(x)]: truncation towards zero. *)
Definition py_int (x : Q) : Z := Z.quot (Qnum x) (Z.pos (Qden x)).

(** Python's [min] on two numbers (the first one on a tie). *)
Definition py_min (a b : Q) : Q := if Qlt_bool b a then b else a.

(** Decimal rendering of an integer, as an f-string prints it. *)
Definition dec (z : Z) : string := NilZero.string_of_int (Z.to_int z).

(** ** Graph model

    A networkx [MultiDiGraph]: node attribute dicts by node id, and edge
    attribute dicts by [(u, v, key)]; [graph[u][v][k]] is a lookup in
    [edges]. *)

Abbreviation edge_key := (Z * Z * Z)%type.

Record graph : Type := Graph {
  nodes : gmap Z attrs;
  edges : gmap (Z * Z * Z) attrs
}.

(** ** Request inputs (find_route.py) *)

(** The [user_preferences] dict; an absent key is [None]. *)
Record preferences : Type := Preferences {
  maxSlope : option Q;
  avoidStairs : option bool;
  minimumWidth : option Q
}.

Record location_t : Type := Location {
  latitude : option Q;
  longitude : option Q
}.

(** One entry of the obstacle list. *)
Record obstacle : Type := Obstacle {
  obstacleType : option string;
  obstacleScore : option Q;
  location : option location_t
}.

Definition DEFAULT_WALKING_SPEED : Q := 14 # 10.
Definition MAX_OBSTACLE_INFLUENCE : Q := 100.

(** [user_preferences = {}] when the argument is [None]. *)
Definition no_preferences : preferences := Preferences None None None.

Definition max_slope (p : preferences) : Q := default (8 # 100) (maxSlope p).
Definition avoid_stairs (p : preferences) : bool := default true (avoidStairs p).
Definition minimum_width (p : preferences) : Q := default (12 # 10) (minimumWidth p).

(** The [obstacle_weights] table. *)
Definition obstacle_weights : gmap string Q :=
  list_to_map
    [ ("STAIRS"%string, 1000%Q); ("NARROW_PATH"%string, 800%Q);
      ("STEEP_INCLINE"%string, 900%Q); ("UNEVEN_SURFACE"%string, 700%Q);
      ("OBSTACLE_IN_PATH"%string, 1000%Q); ("POOR_LIGHTING"%string, 500%Q);
      ("CONSTRUCTION"%string, 900%Q); ("MISSING_RAMP"%string, 800%Q);
      ("MISSING_CROSSWALK"%string, 700%Q); ("OTHER"%string, 600%Q) ].

(** ** Weight calculator: the per-edge loop (find_route.py, 80-106) *)

(** [d[k] += x]. *)
Definition add_num (k : string) (x : Q) (d : attrs) : option attrs :=
  v ← d !! k; n ← as_num v; Some (<[k := VNum (n + x)%Q]> d).

Definition init_edge (p : preferences) (data : attrs) : option attrs :=
  let length := default (VNum 0) (data !! "length") in
  let data := <["weight" := length]> data in
  data ← (if avoid_stairs p && is_str (data !! "stairs") "yes"
          then l ← as_num length; add_num "weight" (l * 100)%Q data
          else Some data);
  edge_width ← get_num data "width" 2;
  data ← (if Qlt_bool edge_width (minimum_width p)
          then width_penalty ←
                 py_div (minimum_width p - edge_width)%Q (minimum_width p);
               l ← as_num length;
               add_num "weight" (l * width_penalty * 10)%Q data
          else Some data);
  grade ← get_num data "grade" 0;
  let edge_grade := Qabs grade in
  data ← (if Qlt_bool (max_slope p) edge_grade
          then slope_penalty ←
                 py_div (edge_grade - max_slope p)%Q (max_slope p);
               l ← as_num length;
               add_num "weight" (l * slope_penalty * 20)%Q data
          else Some data);
  Some (<["original_obstacle_score" :=
            default (VNum 0) (data !! "obstacle_score")]> data).

(** A loop [for u, v, k, data in graph.edges(keys=True, data=True)] whose
    body [body] rewrites the dict [data] in place; an exception in the body
    leaves the loop and the function. *)
Fixpoint for_each_edge (body : attrs -> option attrs)
    (l : list (edge_key * attrs)) (es : gmap (Z * Z * Z) attrs)
    : option (gmap (Z * Z * Z) attrs) :=
  match l with
  | [] => Some es
  | (ek, data) :: r =>
      data' ← body data; for_each_edge body r (<[ek := data']> es)
  end.

Definition init_weights (p : preferences) (g : graph) : option graph :=
  es ← for_each_edge (init_edge p) (map_to_list (edges g)) (edges g);
  Some (Graph (nodes g) es).

(** ** Weight calculator: the obstacle loop (find_route.py, 109-140) *)

(** [graph[u][v][k]['weight'] += edge_penalty] followed by the update of
    ['obstacle_score']. The flag is [false] when a statement raised
    ([KeyError] on a missing edge or key, [TypeError] on a non-number);
    the edges map is the one reached at that point. *)
Definition add_penalty (ek : edge_key) (edge_penalty : Q)
    (es : gmap (Z * Z * Z) attrs) : gmap (Z * Z * Z) attrs * bool :=
  match es !! ek with
  | None => (es, false)
  | Some data =>
      match add_num "weight" edge_penalty data with
      | None => (es, false)
      | Some data1 =>
          match get_num data1 "obstacle_score" 0 with
          | None => (<[ek := data1]> es, false)
          | Some s =>
              (<[ek := <["obstacle_score" := VNum (s + edge_penalty)%Q]> data1]> es,
               true)
          end
      end
  end.

Definition distance_factor (dist : Q) : Q := (1 - dist / MAX_OBSTACLE_INFLUENCE)%Q.

(** The loop [for edge, dist in nearest_edges], inside the [try]: the
    first statement that raises ends the loop. *)
Fixpoint apply_penalties (obstacle_weight : Q) (l : list (edge_key * Q))
    (es : gmap (Z * Z * Z) attrs) : gmap (Z * Z * Z) attrs :=
  match l with
  | [] => es
  | (edge, dist) :: r =>
      if Qle_bool dist MAX_OBSTACLE_INFLUENCE then
        let edge_penalty := (obstacle_weight * distance_factor dist)%Q in
        match add_penalty edge edge_penalty es with
        | (es', true) => apply_penalties obstacle_weight r es'
        | (es', false) => es'
        end
      else apply_penalties obstacle_weight r es
  end.

(** [obstacle_weights.get(obstacle_type, 600) * obstacle_score]. *)
Definition obstacle_weight (ob : obstacle) : Q :=
  let obstacle_type := default "OTHER"%string (obstacleType ob) in
  let obstacle_score := default 1%Q (obstacleScore ob) in
  (default 600%Q (obstacle_weights !! obstacle_type) * obstacle_score)%Q.

Definition obstacle_lat (ob : obstacle) : Q :=
  default 0%Q (l ← location ob; latitude l).
Definition obstacle_lng (ob : obstacle) : Q :=
  default 0%Q (l ← location ob; longitude l).

(** [lat == 0 and lng == 0]. *)
Definition unset_location (ob : obstacle) : bool :=
  Qeq_bool (obstacle_lat ob) 0 && Qeq_bool (obstacle_lng ob) 0.

Section WeightCalculator.

(** [ox.distance.nearest_edges(graph, lng, lat, return_dist=True)], read
    the way the loop reads it: a sequence of [(edge, dist)] pairs, or an
    exception ([None]). *)
Variable nearest_edges : graph -> Q -> Q -> option (list (edge_key * Q)).

Definition apply_obstacle (g : graph) (ob : obstacle) : graph :=
  if unset_location ob then g
  else
    match nearest_edges g (obstacle_lng ob) (obstacle_lat ob) with
    | None => g
    | Some l => Graph (nodes g) (apply_penalties (obstacle_weight ob) l (edges g))
    end.

Definition calculate_obstacle_weights (g : graph) (obstacles : list obstacle)
    (user_preferences : option preferences) : option graph :=
  let p := default no_preferences user_preferences in
  g0 ← init_weights p g;
  Some (foldl apply_obstacle g0 obstacles).

End WeightCalculator.

(** ** Route planner (find_route.py, 144-217) *)

(** *** The shortest-path search

    [nx.shortest_path(graph, origin_node, dest_node, weight='weight')] is a
    call into networkx. It is modelled by a Dijkstra search over the edges
    map: the cost of an edge is [data.get('weight', 1)], parallel edges
    compete by cost, and the search raises ([None]) when an end point is
    not a node, when a cost is not a number, or when the target is never
    reached ([NetworkXNoPath]). The library's error on negative weights
    is not modelled. *)

(** The successors of [v] with the data of the connecting edge. *)
Definition out_edges (g : graph) (v : Z) : list (Z * attrs) :=
  omap (λ x : Z * Z * Z * attrs,
          if decide (x.1.1.1 = v) then Some (x.1.1.2, x.2) else None)
       (map_to_list (edges g)).

(** Relaxing the edge from a node at distance [dv], reached by [pv]. *)
Definition relax (dv : Q) (pv : list Z) (final : gset Z)
    (seen : gmap Z (Q * list Z)) (ud : Z * attrs) : option (gmap Z (Q * list Z)) :=
  cost ← get_num ud.2 "weight" 1;
  let vu_dist := (dv + cost)%Q in
  if decide (ud.1 ∈ final) then Some seen
  else
    match seen !! ud.1 with
    | Some (du, _) =>
        if Qlt_bool vu_dist du
        then Some (<[ud.1 := (vu_dist, pv ++ [ud.1])]> seen)
        else Some seen
    | None => Some (<[ud.1 := (vu_dist, pv ++ [ud.1])]> seen)
    end.

Fixpoint relax_all (dv : Q) (pv : list Z) (final : gset Z)
    (l : list (Z * attrs)) (seen : gmap Z (Q * list Z))
    : option (gmap Z (Q * list Z)) :=
  match l with
  | [] => Some seen
  | ud :: r => seen' ← relax dv pv final seen ud; relax_all dv pv final r seen'
  end.

(** The entry of least distance among the nodes not yet final. *)
Definition pick_min (final : gset Z) (seen : gmap Z (Q * list Z))
    : option (Z * (Q * list Z)) :=
  foldr (λ x acc,
           if decide (x.1 ∈ final) then acc
           else match acc with
                | None => Some x
                | Some y => if Qle_bool x.2.1 y.2.1 then Some x else Some y
                end)
        None (map_to_list seen).

Fixpoint dijkstra_loop (g : graph) (target : Z) (fuel : nat)
    (final : gset Z) (seen : gmap Z (Q * list Z))
    : option (gmap Z (Q * list Z)) :=
  match fuel with
  | O => Some seen
  | S n =>
      match pick_min final seen with
      | None => Some seen
      | Some (v, (dv, pv)) =>
          if decide (v = target) then Some seen
          else
            seen' ← relax_all dv pv final (out_edges g v) seen;
            dijkstra_loop g target n ({[v]} ∪ final) seen'
      end
  end.

(** Every round makes one more node final, and a node that is seen is the
    source or the head of an edge: [S (size (edges g))] rounds exhaust
    the fringe (lemma [shortest_path_complete]). *)
Definition shortest_path (g : graph) (source target : Z) : option (list Z) :=
  if decide (source ∈ dom (nodes g) ∧ target ∈ dom (nodes g)) then
    seen ← dijkstra_loop g target (S (size (edges g))) ∅
              {[source := (0%Q, [source])]};
    dp ← seen !! target;
    Some dp.2
  else None.

(** *** The route result *)

(** [{'latitude': lat, 'longitude': lng}]. *)
Record point : Type := Point {
  pt_latitude : value;
  pt_longitude : value
}.

Record step : Type := Step {
  instructions : string;
  step_distance : string;
  step_duration : string;
  startLocation : point;
  endLocation : point
}.

Record route : Type := Route {
  points : list point;
  distance : Q;
  duration : string;
  hasObstacles : bool;
  steps : list step
}.

(** Python's [round(x)]: to the nearest integer, ties to the even one. *)
Definition py_round (x : Q) : Z :=
  let f := Qfloor x in
  let r := (x - inject_Z f)%Q in
  if Qlt_bool r (1 # 2) then f
  else if Qlt_bool (1 # 2) r then f + 1
  else if Z.even f then f else f + 1.

(** [round(x, 2)]. *)
Definition py_round2 (x : Q) : Q := (inject_Z (py_round (x * 100)) / 100)%Q.

(** The coordinates of the nodes of the path ([KeyError] on a node
    without ['y'] or ['x']). *)
Fixpoint route_points_of (g : graph) (path : list Z) : option (list point) :=
  match path with
  | [] => Some []
  | node :: r =>
      nd ← nodes g !! node;
      lat ← nd !! "y";
      lng ← nd !! "x";
      ps ← route_points_of g r;
      Some (Point lat lng :: ps)
  end.

(** The loop [for i in range(1, len(path))] with [u = path[i-1]] and
    [v = path[i]]; [get_edge_data(u, v, 0)] is [None] without an edge of
    key 0, and [.get] on it raises. *)
Fixpoint route_stats (g : graph) (u : Z) (rest : list Z)
    (route_length : Q) (route_obstacles : bool) : option (Q * bool) :=
  match rest with
  | [] => Some (route_length, route_obstacles)
  | v :: rest' =>
      edge_data ← edges g !! (u, v, 0);
      len ← get_num edge_data "length" 0;
      let route_length := (route_length + len)%Q in
      score ← get_num edge_data "obstacle_score" 0;
      hit ← (if Qlt_bool 0 score then Some true
             else orig ← get_num edge_data "original_obstacle_score" 0;
                  Some (Qlt_bool 0 orig));
      route_stats g v rest' route_length
                  (if hit : bool then true else route_obstacles)
  end.

(** The route statistics of a path: total length and obstacle flag. *)
Definition path_stats (g : graph) (path : list Z) : option (Q * bool) :=
  match path with
  | [] => Some (0%Q, false)
  | u :: rest => route_stats g u rest 0 false
  end.

Definition duration_minutes_of (route_length : Q) : Z :=
  let duration_seconds := (route_length / DEFAULT_WALKING_SPEED)%Q in
  Qceiling (duration_seconds / 60).

Definition format_duration (duration_minutes : Z) : string :=
  if duration_minutes <? 60 then dec duration_minutes ++ " mins"
  else
    let hours := Qfloor (inject_Z duration_minutes / 60) in
    let mins := duration_minutes `mod` 60 in
    dec hours ++ " hours " ++ dec mins ++ " mins".

Section RoutePlanner.

(** [ox.distance.nearest_nodes(graph, X, Y)]: the id of a node, or an
    exception. *)
Variable nearest_nodes : graph -> Q -> Q -> option Z.

(** [origin] and [destination] are [(latitude, longitude)] pairs. The
    result is [None] where the source returns [None] from its handler. *)
Definition find_accessible_route (g : graph) (origin destination : Q * Q)
    : option route :=
  origin_node ← nearest_nodes g origin.2 origin.1;
  dest_node ← nearest_nodes g destination.2 destination.1;
  path ← shortest_path g origin_node dest_node;
  route_points ← route_points_of g path;
  stats ← path_stats g path;
  let route_length := stats.1 in
  let route_obstacles := stats.2 in
  let duration_str := format_duration (duration_minutes_of route_length) in
  let distance_km := py_round2 (route_length / 1000) in
  start ← head route_points;
  finish ← last route_points;
  Some (Route route_points distance_km duration_str route_obstacles
          [Step "Follow the accessible path."
                (dec (py_round route_length) ++ " m")
                duration_str start finish]).

End RoutePlanner.

(** ** Attribute enrichment (create_graph.py, 58-108) *)

(** *** The string operations of the width parser *)

(** [s.replace(old, new)] for a non-empty [old]: the occurrences are
    replaced from the left, without overlap. [skip] counts the characters
    of a matched occurrence still to be dropped. *)
Fixpoint replace_go (old new : string) (skip : nat) (s : string) : string :=
  match s with
  | EmptyString => EmptyString
  | String c r =>
      match skip with
      | S k => replace_go old new k r
      | O =>
          if String.prefix old s
          then (new ++ replace_go old new (String.length old - 1)%nat r)%string
          else String c (replace_go old new 0%nat r)
      end
  end.

Definition replace (old new s : string) : string := replace_go old new 0%nat s.

(** [sub in s]. *)
Fixpoint contains (sub s : string) : bool :=
  String.prefix sub s
  || match s with
     | EmptyString => false
     | String _ r => contains sub r
     end.

(** The ASCII characters [str.isspace] accepts. *)
Definition is_space (c : ascii) : bool :=
  let n := nat_of_ascii c in
  ((9 <=? n) && (n <=? 13) || (28 <=? n) && (n <=? 32))%nat.

Fixpoint lstrip (s : string) : string :=
  match s with
  | String c r => if is_space c then lstrip r else s
  | EmptyString => EmptyString
  end.

Fixpoint rstrip (s : string) : string :=
  match s with
  | EmptyString => EmptyString
  | String c r =>
      match rstrip r with
      | EmptyString => if is_space c then EmptyString else String c EmptyString
      | r' => String c r'
      end
  end.

Definition strip (s : string) : string := rstrip (lstrip s).

(** *** [float(s)] on decimal literals

    Sign, digits, an optional fraction and an optional exponent, between
    optional white space; any other text is a [ValueError]. The spellings
    of infinity and NaN and digit-group underscores are not modelled. *)

Definition digit_of (c : ascii) : option Z :=
  let n := nat_of_ascii c in
  if ((48 <=? n) && (n <=? 57))%nat then Some (Z.of_nat (n - 48)) else None.

(** Reads a run of digits: its value, its length and the rest. *)
Fixpoint read_digits (s : string) (acc : Z) (cnt : nat) : Z * nat * string :=
  match s with
  | EmptyString => (acc, cnt, s)
  | String c r =>
      match digit_of c with
      | Some d => read_digits r (acc * 10 + d) (S cnt)
      | None => (acc, cnt, s)
      end
  end.

Definition parse_exponent (s : string) : option Z :=
  let '(neg, body) :=
    match s with
    | String "+" r => (false, r)
    | String "-" r => (true, r)
    | _ => (false, s)
    end in
  let '(e, n, rest) := read_digits body 0 0%nat in
  match n, rest with
  | S _, EmptyString => Some (if neg : bool then - e else e)
  | _, _ => None
  end.

Definition parse_unsigned (s : string) : option Q :=
  let '(ip, n1, r1) := read_digits s 0 0%nat in
  let '(fp, n2, r2) :=
    match r1 with
    | String "." r => read_digits r 0 0%nat
    | _ => (0, 0%nat, r1)
    end in
  if (n1 + n2 =? 0)%nat then None
  else
    let mant := (inject_Z ip + inject_Z fp / inject_Z (10 ^ Z.of_nat n2))%Q in
    match r2 with
    | EmptyString => Some mant
    | String c r3 =>
        if (Ascii.eqb c "e" || Ascii.eqb c "E")%bool
        then e ← parse_exponent r3; Some (mant * Qpower 10 e)%Q
        else None
    end.

Definition py_float (s : string) : option Q :=
  match strip s with
  | String "+" r => parse_unsigned r
  | String "-" r => Qopp <$> parse_unsigned r
  | t => parse_unsigned t
  end.

(** *** The width tag (create_graph.py, 77-88)

    The body of the [try], with the [except ValueError] fallback. *)
Definition parse_width (width_str : string) : Q :=
  let width_str := strip (replace "meters" "" (replace "m" "" width_str)) in
  if contains "cm" width_str then
    let width_str := replace "cm" "" width_str in
    match py_float width_str with
    | Some x => (x / 100)%Q
    | None => 2%Q
    end
  else
    match py_float width_str with
    | Some x => x
    | None => 2%Q
    end.

Definition problematic_surfaces : list string :=
  ["cobblestone"; "gravel"; "dirt"; "sand"; "mud"]%string.

(** Lines 70-73: the check for stairs. *)
Definition check_stairs (tags : list (string * value)) (data : attrs)
    : option attrs :=
  if is_str (assoc_get tags "highway") "steps"
     || is_str (assoc_get tags "stairs") "yes"
  then add_num "obstacle_score" 100 (<["stairs" := VStr "yes"]> data)
  else Some data.

(** Lines 76-88: the check for width; a width tag that is not a string
    raises [AttributeError], which the handler does not catch. *)
Definition check_width (tags : list (string * value)) (data : attrs)
    : option attrs :=
  match assoc_get tags "width" with
  | None => Some data
  | Some (VStr width_str) =>
      Some (<["width" := VNum (parse_width width_str)]> data)
  | Some _ => None
  end.

(** Lines 91-96: the check for surface quality. *)
Definition check_surface (tags : list (string * value)) (data : attrs)
    : option attrs :=
  match assoc_get tags "surface" with
  | None => Some data
  | Some v =>
      let data := <["surface" := v]> data in
      if existsb (is_str (Some v)) problematic_surfaces
      then add_num "obstacle_score" 50 data
      else Some data
  end.

(** Lines 99-102: the check for lighting. *)
Definition check_lit (tags : list (string * value)) (data : attrs)
    : option attrs :=
  match assoc_get tags "lit" with
  | None => Some data
  | Some v =>
      let data := <["lit" := v]> data in
      if is_str (Some v) "no" then add_num "obstacle_score" 20 data
      else Some data
  end.

(** Lines 60-102: the defaults, then the tags. A tag dict that is not a
    dict raises out of the loop. *)
Definition enrich_tags (data : attrs) : option attrs :=
  let data := <["stairs" := VStr "no"]> data in
  let data := <["width" := VNum 2]> data in
  let data := <["surface" := VStr "unknown"]> data in
  let data := <["lit" := VStr "unknown"]> data in
  let data := <["obstacle_score" := VNum 0]> data in
  match data !! "tags" with
  | None => Some data
  | Some (VDict tags) =>
      data ← check_stairs tags data;
      data ← check_width tags data;
      data ← check_surface tags data;
      check_lit tags data
  | Some _ => None
  end.

(** Lines 105-108: the slope-based score. *)
Definition enrich_grade (data : attrs) : option attrs :=
  match data !! "grade" with
  | None | Some VNone => Some data
  | Some v =>
      g ← as_num v;
      let grade := Qabs g in
      if Qlt_bool (8 # 100) grade
      then add_num "obstacle_score"
             (py_min 100 (inject_Z (py_int (grade * 100)))) data
      else Some data
  end.

Definition enrich_edge (data : attrs) : option attrs :=
  data ← enrich_tags data; enrich_grade data.

Section CreateGraph.

(** The collaborators of osmnx: graph retrieval for a bounding box, and
    the elevation and grade look-up. [None] is an exception. *)
Variable graph_from_bbox : Q -> Q -> Q -> Q -> string -> option graph.
Variable add_elevations_and_grades : graph -> option graph.

(** The fallback of the elevation step: [data['grade'] = 0] on all edges. *)
Definition zero_grades (g : graph) : graph :=
  Graph (nodes g) (<["grade" := VNum 0]> <$> edges g).

Definition create_graph (north south east west : Q) (network_type : string)
    : option graph :=
  g ← graph_from_bbox north south east west network_type;
  let g := match add_elevations_and_grades g with
           | Some g' => g'
           | None => zero_grades g
           end in
  es ← for_each_edge enrich_edge (map_to_list (edges g)) (edges g);
  Some (Graph (nodes g) es).

End CreateGraph.

(** ** Graph exchange format (create_graph.py, 116-130; find_route.py, 27-43) *)












(** ** The formulas of the specification *)

(** Section 4.3, steps 1-4: the weight of an edge of length [len], width
    [w] and grade [gr] before the obstacle list is applied. *)
Definition spec_preference_weight (p : preferences) (stairs : bool)
    (len w gr : Q) : Q :=
  (len
   + (if avoid_stairs p && stairs then len * 100 else 0)
   + (if Qlt_bool w (minimum_width p)
      then len * ((minimum_width p - w) / minimum_width p) * 10 else 0)
   + (if Qlt_bool (max_slope p) (Qabs gr)
      then len * ((Qabs gr - max_slope p) / max_slope p) * 20 else 0))%Q.


(** Section 4.2: the grade-based penalty. *)
Definition spec_grade_penalty (grade : Q) : Q :=
  if Qlt_bool (8 # 100) (Qabs grade)
  then inject_Z (Z.min 100 (Qfloor (Qabs grade * 100)))
  else 0%Q.


(** ** Predicates and sample inputs of the statements *)

(** The call returned. *)
Definition succeeds {A : Type} (o : option A) : bool :=
  match o with
  | Some _ => true
  | None => false
  end.

(** [graph[u][v][k].get(key, dflt)] read as a number. *)
Definition edge_num (g : graph) (e : edge_key) (k : string) (dflt : Q)
    : option Q :=
  d ← edges g !! e; get_num d k dflt.

(** Two edge maps with the same keys whose dicts are related by [P]. *)
Definition edges_rel (P : attrs -> attrs -> Prop)
    (es es' : gmap (Z * Z * Z) attrs) : Prop :=
  forall e, option_Forall2 P (es !! e) (es' !! e).

(** The attributes the weight calculator writes. *)
Definition written : list string :=
  ["weight"; "obstacle_score"; "original_obstacle_score"]%string.

(** [d'] agrees with [d] outside the written attributes. *)
Definition frame (d d' : attrs) : Prop :=
  forall k, k ∉ written -> d' !! k = d !! k.

(** The length is kept and a numeric weight does not decrease. *)
Definition grows (d d' : attrs) : Prop :=
  d' !! "length" = d !! "length"
  /\ forall w, d !! "weight" = Some (VNum w) ->
       exists w', d' !! "weight" = Some (VNum w') /\ (w <= w')%Q.

(** The penalties an obstacle can produce all satisfy [ok]. *)
Definition ok_obstacle (ok : Q -> Prop) (ob : obstacle) : Prop :=
  forall dist, (dist <= 100)%Q -> ok (obstacle_weight ob * distance_factor dist)%Q.

(** An edge as section 3 of the specification describes it: a length that
    is a non-negative number, a width and a grade that are numbers. *)
Definition enriched_edge (d : attrs) : Prop :=
  exists len w gr,
    get_num d "length" 0 = Some len /\ (0 <= len)%Q
    /\ get_num d "width" 2 = Some w
    /\ get_num d "grade" 0 = Some gr.

(** The attributes the per-edge loop reads are numbers (or absent). *)
Definition numeric_edge (d : attrs) : Prop :=
  is_Some (get_num d "length" 0)
  /\ is_Some (get_num d "width" 2)
  /\ is_Some (get_num d "grade" 0).

Definition positive_score (ob : obstacle) : Prop :=
  (0 < default 1 (obstacleScore ob))%Q.




(** [s] has no letter m. *)
Fixpoint no_m (s : string) : bool :=
  match s with
  | EmptyString => true
  | String c r => negb (Ascii.eqb c "m") && no_m r
  end.

Definition has_edge (g : graph) (u v : Z) : Prop :=
  exists k d, edges g !! (u, v, k) = Some d.

(** [walk g s t p]: [p] lists the nodes of a path of [g] from [s] to [t]. *)
Inductive walk (g : graph) (s : Z) : Z -> list Z -> Prop :=
  | walk_start : walk g s s [s]
  | walk_step u t p : walk g s u p -> has_edge g u t -> walk g s t (p ++ [t]).

(** Every entry of the search state holds a path from the source. *)
Definition sound_entries (g : graph) (s : Z) (seen : gmap Z (Q * list Z))
    : Prop :=
  forall v dp, seen !! v = Some dp -> walk g s v dp.2.

(** The nodes the search can see: the source and the heads of edges. *)
Definition reach_bound (g : graph) (s : Z) : gset Z :=
  {[s]} ∪ list_to_set
            ((λ x : Z * Z * Z * attrs, x.1.1.2) <$> map_to_list (edges g)).

(** Every edge has a numeric cost. *)
Definition numeric_costs (g : graph) : Prop :=
  forall e d, edges g !! e = Some d -> is_Some (get_num d "weight" 1).

(** The invariant of the search loop: final nodes are seen and their
    successors too, the target is not final, and only the source and
    heads of edges are seen. *)
Record search_inv (g : graph) (s t : Z) (final : gset Z)
    (seen : gmap Z (Q * list Z)) : Prop := {
  inv_final : final ⊆ dom seen;
  inv_closed : forall v u, v ∈ final -> has_edge g v u -> u ∈ dom seen;
  inv_source : s ∈ dom seen;
  inv_target : t ∉ final;
  inv_bound : dom seen ⊆ reach_bound g s
}.


(** A footway with the attributes the enrichment sets. *)
Definition plain_edge (len grade width : Q) : attrs :=
  list_to_map
    [ ("length"%string, VNum len); ("grade"%string, VNum grade);
      ("stairs"%string, VStr "no"); ("width"%string, VNum width);
      ("surface"%string, VStr "unknown"); ("lit"%string, VStr "unknown");
      ("obstacle_score"%string, VNum 0) ].

(** A flight of steps, as the enrichment marks it. *)
Definition steps_edge (len : Q) : attrs :=
  <["obstacle_score" := VNum 100]>
    (<["stairs" := VStr "yes"]> (plain_edge len 0 2)).

(** The footway of length 10 after the per-edge loop. *)
Definition weighted_plain_edge : attrs :=
  <["weight" := VNum 10]> (plain_edge 10 0 2).

(** An edge as the map source delivers it: steps, 250cm wide, on a 12%
    slope. *)
Definition raw_steps_edge : attrs :=
  list_to_map
    [ ("length"%string, VNum 10); ("grade"%string, VNum (12 # 100));
      ("tags"%string,
       VDict [ ("highway"%string, VStr "steps");
               ("width"%string, VStr "250cm") ]) ].

Definition plain_node (x y : Q) : attrs :=
  list_to_map [ ("x"%string, VNum x); ("y"%string, VNum y) ].

Definition two_nodes : gmap Z attrs :=
  list_to_map [ (1, plain_node 0 0); (2, plain_node (1 # 1000) 0) ].

(** Nodes 1 and 2 joined by one edge from 1 to 2. *)
Definition one_edge_graph (d : attrs) : graph :=
  Graph two_nodes (list_to_map [ ((1, 2, 0), d) ]).

(** Two parallel edges from node 1 to node 2: steps under key 0 and a
    plain path under key 1. *)
Definition parallel_graph : graph :=
  Graph two_nodes
        (list_to_map
           [ ((1, 2, 0), steps_edge 10); ((1, 2, 1), plain_edge 12 0 2) ]).

(** Nodes 1 and 2 with a single edge, from 2 to 1. *)
Definition one_way_back_graph : graph :=
  Graph two_nodes {[ (2, 1, 0) := plain_edge 10 0 2 ]}.

(** An edge look-up that always fails, and one that finds the edge
    [(1, 2, 0)] at 50 metres. *)
Definition no_lookup : graph -> Q -> Q -> option (list (edge_key * Q)) :=
  fun _ _ _ => None.
Definition lookup_at_50 : graph -> Q -> Q -> option (list (edge_key * Q)) :=
  fun _ _ _ => Some [ ((1, 2, 0), 50%Q) ].

(** A node look-up for the two-node graphs: by longitude. *)
Definition nearest_of_two : graph -> Q -> Q -> option Z :=
  fun _ x _ => Some (if Qle_bool x 0 then 1 else 2).

Definition stairs_obstacle : obstacle :=
  Obstacle (Some "STAIRS"%string) (Some 1%Q)
           (Some (Location (Some (1 # 1000)) (Some (1 # 2000)))).

Definition weighted_parallel_graph : option graph :=
  calculate_obstacle_weights no_lookup parallel_graph [] None.

(** A footway of 4950 metres with its weight set. *)
Definition long_edge_graph : graph :=
  one_edge_graph (<["weight" := VNum 4950]> (plain_edge 4950 0 2)).


(** ** Predicates and sample inputs of the further properties *)

(** [d'] agrees with [d] outside the keys [ks]. *)
Definition frame_on (ks : list string) (d d' : attrs) : Prop :=
  forall k, k ∉ ks -> d' !! k = d !! k.

(** The attributes the tag phase of the enrichment writes. *)
Definition enriched_keys : list string :=
  ["stairs"; "width"; "surface"; "lit"; "obstacle_score"]%string.

(** The tag dict of an edge as the tag phase sees it: no ['tags'] key
    behaves like an empty dict, a value that is no dict raises. *)
Definition tags_of (d : attrs) : option (list (string * value)) :=
  match d !! "tags" with
  | None => Some []
  | Some (VDict tags) => Some tags
  | Some _ => None
  end.

(** Line 71: the tags mark steps. *)
Definition is_steps (tags : list (string * value)) : bool :=
  is_str (assoc_get tags "highway") "steps"
  || is_str (assoc_get tags "stairs") "yes".

(** Lines 91-95: the surface tag names a problematic surface. *)
Definition bad_surface (tags : list (string * value)) : bool :=
  match assoc_get tags "surface" with
  | Some v => existsb (is_str (Some v)) problematic_surfaces
  | None => false
  end.

(** Lines 99-101: the way is tagged as not lit. *)
Definition unlit (tags : list (string * value)) : bool :=
  is_str (assoc_get tags "lit") "no".

(** The score the tags give: 100 for steps, 50 for a problematic surface,
    20 for an unlit way. *)
Definition tags_score (tags : list (string * value)) : Q :=
  ((if is_steps tags then 100 else 0)
   + (if bad_surface tags then 50 else 0)
   + (if unlit tags then 20 else 0))%Q.

(** The width the tags give; [None] for a width tag that is no string. *)
Definition tags_width (tags : list (string * value)) : option Q :=
  match assoc_get tags "width" with
  | None => Some 2%Q
  | Some (VStr s) => Some (parse_width s)
  | Some _ => None
  end.

(** The grade penalty of an edge; a missing or [None] grade gives none. *)
Definition grade_penalty_of (d : attrs) : Q :=
  match d !! "grade" with
  | Some (VNum g) => spec_grade_penalty g
  | _ => 0%Q
  end.

(** The grade is a number, [None] or absent: what the grade rule of the
    enrichment accepts. *)
Definition grade_ok (d : attrs) : bool :=
  match d !! "grade" with
  | None | Some VNone | Some (VNum _) => true
  | Some _ => false
  end.

(** The state of the five attributes during the tag phase. *)
Definition tag_state (d d1 : attrs) (st w su li : value) (s : Q) : Prop :=
  d1 !! "stairs" = Some st
  /\ d1 !! "width" = Some w
  /\ d1 !! "surface" = Some su
  /\ d1 !! "lit" = Some li
  /\ (exists s', d1 !! "obstacle_score" = Some (VNum s') /\ (s' == s)%Q)
  /\ frame_on enriched_keys d d1.

(** An edge the enrichment accepts: the tags are a dict (or absent), a
    width tag is a string, and the grade is a number, [None] or absent. *)
Definition well_tagged (d : attrs) : bool :=
  match tags_of d with
  | Some tags => succeeds (tags_width tags)
  | None => false
  end && grade_ok d.

(** The graph after the elevation step of [create_graph]. *)
Definition graded (add_elevations_and_grades : graph -> option graph)
    (g : graph) : graph :=
  match add_elevations_and_grades g with
  | Some g' => g'
  | None => zero_grades g
  end.

(** A map source that delivers the one-edge graph of [d] for every box. *)
Definition bbox_of (d : attrs) : Q -> Q -> Q -> Q -> string -> option graph :=
  fun _ _ _ _ _ => Some (one_edge_graph d).

(** An elevation service that fails, and one that leaves the grades as
    the map source delivered them. *)
Definition no_elevation : graph -> option graph := fun _ => None.
Definition elevation_kept : graph -> option graph := Some.

(** An edge whose width tag is a number, not a string. *)
Definition numeric_width_edge : attrs :=
  list_to_map
    [ ("length"%string, VNum 10);
      ("tags"%string, VDict [ ("width"%string, VNum 3) ]) ].

(** An edge whose grade is [None]. *)
Definition none_grade_edge : attrs :=
  list_to_map [ ("length"%string, VNum 10); ("grade"%string, VNone) ].




(** The obstacle score does not decrease. *)
Definition score_grows (d d' : attrs) : Prop :=
  forall s, get_num d "obstacle_score" 0 = Some s ->
    exists s', get_num d' "obstacle_score" 0 = Some s' /\ (s <= s')%Q.


(** The snapshot of the score is kept. *)
Definition keeps_original (d d' : attrs) : Prop :=
  d' !! "original_obstacle_score" = d !! "original_obstacle_score".



(** The pairs [(path[i-1], path[i])] the statistics loop visits. *)
Fixpoint hops (path : list Z) : list (Z * Z) :=
  match path with
  | u :: (v :: _) as rest => (u, v) :: hops rest
  | _ => []
  end.


(** The node [v] has both coordinates. *)
Definition has_coords (g : graph) (v : Z) : Prop :=
  exists nd lat lng,
    nodes g !! v = Some nd /\ nd !! "y" = Some lat /\ nd !! "x" = Some lng.

(** The edge of key 0 from [u] to [v] exists and holds numbers where the
    statistics loop reads them. *)
Definition key_zero_ok (g : graph) (u v : Z) : Prop :=
  exists d, edges g !! (u, v, 0) = Some d
    /\ is_Some (get_num d "length" 0)
    /\ is_Some (get_num d "obstacle_score" 0)
    /\ is_Some (get_num d "original_obstacle_score" 0).



(** Every edge has a cost that is a non-negative number. *)
Definition nonneg_costs (g : graph) : Prop :=
  forall e d, edges g !! e = Some d ->
    exists c, get_num d "weight" 1 = Some c /\ (0 <= c)%Q.

(** Nodes 1 and 2 joined by a single edge of key 1. *)
Definition key_one_graph : graph :=
  Graph two_nodes
        {[ (1, 2, 1) := <["weight" := VNum 10]> (plain_edge 10 0 2) ]}.

(** * Properties *)

(** ** Numbers and attribute reads *)

Lemma Qlt_bool_iff a b : Qlt_bool a b = true <-> (a < b)%Q.
Proof.
  unfold Qlt_bool. rewrite negb_true_iff.
  split; intros H.
  - apply Qnot_le_lt. intros Hle. apply Qle_bool_iff in Hle. congruence.
  - destruct (Qle_bool b a) eqn:E; [|done].
    apply Qle_bool_iff in E. exfalso. eapply Qlt_not_le; eauto.
Qed.

Lemma Qlt_bool_false a b : Qlt_bool a b = false <-> (b <= a)%Q.
Proof.
  unfold Qlt_bool. rewrite negb_false_iff. apply Qle_bool_iff.
Qed.

Lemma get_num_insert_ne (d : attrs) k k' v dflt :
  k' ≠ k → get_num (<[k' := v]> d) k dflt = get_num d k dflt.
Proof. intros H. unfold get_num. by rewrite lookup_insert_ne. Qed.

Lemma get_num_insert_eq (d : attrs) k q dflt :
  get_num (<[k := VNum q]> d) k dflt = Some q.
Proof. unfold get_num. by rewrite lookup_insert_eq. Qed.

Lemma add_num_insert (d : attrs) k a x :
  add_num k x (<[k := VNum a]> d) = Some (<[k := VNum (a + x)%Q]> d).
Proof.
  unfold add_num. rewrite lookup_insert_eq. simpl. by rewrite insert_insert_eq.
Qed.

Lemma add_num_eq k x d d' :
  add_num k x d = Some d' →
  ∃ n, d !! k = Some (VNum n) ∧ d' = <[k := VNum (n + x)%Q]> d.
Proof.
  unfold add_num. destruct (d !! k) as [[]|]; simpl; try done.
  intros [= <-]. eauto.
Qed.

Lemma length_value (d : attrs) len :
  get_num d "length" 0 = Some len →
  as_num (default (VNum 0) (d !! "length")) = Some len.
Proof. unfold get_num. destruct (d !! "length") as [v|]; simpl; done. Qed.

(** ** The per-edge loop of the weight calculator *)

(** The weight [init_edge] computes is the formula of section 4.3; the
    only exception it can raise on numeric attributes is a division by a
    zero preference. *)
Lemma init_edge_weight (p : preferences) (d : attrs) (len w gr : Q) :
  get_num d "length" 0 = Some len →
  get_num d "width" 2 = Some w →
  get_num d "grade" 0 = Some gr →
  match init_edge p d with
  | Some d' =>
      ∃ W, d' !! "weight" = Some (VNum W) ∧
           (W == spec_preference_weight p (is_str (d !! "stairs") "yes") len w gr)%Q
  | None =>
      ((w < minimum_width p)%Q ∧ (minimum_width p == 0)%Q)
      ∨ ((max_slope p < Qabs gr)%Q ∧ (max_slope p == 0)%Q)
  end.
Proof.
  intros Hl Hw Hg. unfold init_edge, spec_preference_weight.
  pose proof (length_value _ _ Hl) as Hlv.
  unfold get_num in Hl.
  set (lv := default (VNum 0) (d !! "length")) in *.
  assert (lv = VNum len) as -> by (destruct lv; simpl in Hlv; congruence).
  rewrite (lookup_insert_ne _ "weight" "stairs") by done.
  unfold py_div.
  destruct (avoid_stairs p && is_str (d !! "stairs") "yes") eqn:Es; simpl;
    rewrite ?add_num_insert; simpl;
    rewrite !get_num_insert_ne by done; rewrite Hw; simpl;
    (destruct (Qlt_bool w (minimum_width p)) eqn:Ew; simpl;
     [ destruct (Qeq_bool (minimum_width p) 0) eqn:Ez; simpl;
       [ left; split; [by apply Qlt_bool_iff | by apply Qeq_bool_iff] | ] | ]);
    rewrite ?add_num_insert; simpl;
    rewrite !get_num_insert_ne by done; rewrite Hg; simpl;
    (destruct (Qlt_bool (max_slope p) (Qabs gr)) eqn:Eg; simpl;
     [ destruct (Qeq_bool (max_slope p) 0) eqn:Ez'; simpl;
       [ right; split; [by apply Qlt_bool_iff | by apply Qeq_bool_iff] | ] | ]);
    rewrite ?add_num_insert; simpl;
    (eexists; split;
     [ rewrite lookup_insert_ne by done; apply lookup_insert_eq | ring ]).
Qed.

Lemma init_edge_total p d :
  numeric_edge d → ¬ (minimum_width p == 0)%Q → ¬ (max_slope p == 0)%Q →
  is_Some (init_edge p d).
Proof.
  intros ([len Hl] & [w Hw] & [gr Hg]) Hmw Hms.
  pose proof (init_edge_weight p d len w gr Hl Hw Hg) as H.
  destruct (init_edge p d) as [d'|]; [by eexists|].
  by destruct H as [[_ H]|[_ H]].
Qed.

Section EdgeLoop.
Variable body : attrs → option attrs.

Lemma for_each_edge_lookup (l : list (edge_key * attrs)) :
  ∀ (es es' : gmap (Z * Z * Z) attrs),
    NoDup l.*1 →
    for_each_edge body l es = Some es' →
    ∀ e, es' !! e =
         match (list_to_map l : gmap (Z * Z * Z) attrs) !! e with
         | Some d => body d
         | None => es !! e
         end.
Proof.
  induction l as [|[ek data] r IH]; intros es es' Hnd Hrun e; simpl in *.
  - rewrite lookup_empty. congruence.
  - destruct (body data) as [data'|] eqn:Hb; simpl in Hrun; [|done].
    apply NoDup_cons in Hnd as [Hnotin Hnd].
    rewrite (IH _ _ Hnd Hrun e).
    destruct (decide (ek = e)) as [->|Hne].
    + rewrite lookup_insert_eq.
      rewrite (not_elem_of_list_to_map_1 _ _ Hnotin).
      by rewrite lookup_insert_eq.
    + by rewrite !(lookup_insert_ne _ ek e) by done.
Qed.

Lemma for_each_edge_success (l : list (edge_key * attrs)) :
  ∀ es es', for_each_edge body l es = Some es' →
            Forall (λ x, is_Some (body x.2)) l.
Proof.
  induction l as [|[ek data] r IH]; intros es es' Hrun; simpl in *.
  - constructor.
  - destruct (body data) as [data'|] eqn:Hb; simpl in Hrun; [|done].
    constructor; [simpl; rewrite Hb; by eexists | by eapply IH].
Qed.

Lemma for_each_edge_total (l : list (edge_key * attrs)) :
  ∀ es, Forall (λ x, is_Some (body x.2)) l →
        is_Some (for_each_edge body l es).
Proof.
  induction l as [|[ek data] r IH]; intros es Hall; simpl.
  - by eexists.
  - apply Forall_cons in Hall as [[data' Hb] Hall]. simpl in Hb.
    rewrite Hb. simpl. by apply IH.
Qed.

Lemma for_each_edge_map (m es' : gmap (Z * Z * Z) attrs) :
  for_each_edge body (map_to_list m) m = Some es' →
  edges_rel (λ d d', body d = Some d') m es'.
Proof.
  intros Hrun e.
  rewrite (for_each_edge_lookup _ _ _ (NoDup_fst_map_to_list m) Hrun e).
  rewrite list_to_map_to_list.
  destruct (m !! e) as [d|] eqn:Hd; [|constructor].
  apply for_each_edge_success in Hrun.
  rewrite Forall_forall in Hrun.
  destruct (Hrun (e, d)) as [d' Hd']; [by apply elem_of_map_to_list|].
  simpl in Hd'. rewrite Hd'. by constructor.
Qed.

Lemma for_each_edge_map_total (m : gmap (Z * Z * Z) attrs) :
  (∀ e d, m !! e = Some d → is_Some (body d)) →
  is_Some (for_each_edge body (map_to_list m) m).
Proof.
  intros H. apply for_each_edge_total, Forall_forall.
  intros [e d] Hin. apply elem_of_map_to_list in Hin. simpl. eauto.
Qed.
End EdgeLoop.

Lemma init_weights_rel p g g0 :
  init_weights p g = Some g0 →
  nodes g0 = nodes g
  ∧ edges_rel (λ d d', init_edge p d = Some d') (edges g) (edges g0).
Proof.
  unfold init_weights. intros H.
  destruct (for_each_edge _ _ _) as [es|] eqn:Hrun; simpl in H; [|done].
  injection H as <-. simpl. split; [done|].
  by apply for_each_edge_map.
Qed.

Lemma init_weights_total p g :
  (∀ e d, edges g !! e = Some d → is_Some (init_edge p d)) →
  is_Some (init_weights p g).
Proof.
  intros H. unfold init_weights.
  destruct (for_each_edge_map_total (init_edge p) (edges g) H) as [es ->].
  by eexists.
Qed.



(** ** Edge-wise relations along the obstacle loop *)

Lemma edges_rel_compose (P Q R : attrs → attrs → Prop) a b c :
  (∀ x y z, P x y → Q y z → R x z) →
  edges_rel P a b → edges_rel Q b c → edges_rel R a c.
Proof.
  intros HR Hab Hbc e. specialize (Hab e). specialize (Hbc e).
  destruct Hab; inversion Hbc; subst; constructor. eauto.
Qed.

Lemma edges_rel_dom P es es' : edges_rel P es es' → dom es' = dom es.
Proof.
  intros H. apply set_eq. intros e. rewrite !elem_of_dom.
  specialize (H e). destruct H; split; intros [? ?]; by eauto.
Qed.

Lemma edges_rel_lookup P es es' e d d' :
  edges_rel P es es' → es !! e = Some d → es' !! e = Some d' → P d d'.
Proof.
  intros H Hd Hd'. specialize (H e). rewrite Hd, Hd' in H. by inversion H.
Qed.

Lemma edges_rel_lookup_r P es es' e d' :
  edges_rel P es es' → es' !! e = Some d' → ∃ d, es !! e = Some d ∧ P d d'.
Proof.
  intros H Hd. specialize (H e). rewrite Hd in H. inversion H; subst. eauto.
Qed.

Section ObstacleLoopInvariant.
Variable P : attrs → attrs → Prop.
Variable ok : Q → Prop.
Hypothesis P_refl : ∀ d, P d d.
Hypothesis P_trans : ∀ a b c, P a b → P b c → P a c.
Hypothesis P_weight :
  ∀ pen d d1, ok pen → add_num "weight" pen d = Some d1 → P d d1.
Hypothesis P_score :
  ∀ pen d1 s, ok pen → P d1 (<["obstacle_score" := VNum (s + pen)%Q]> d1).

Lemma edges_rel_refl es : edges_rel P es es.
Proof. intros e. destruct (es !! e); constructor. apply P_refl. Qed.

Lemma edges_rel_trans a b c :
  edges_rel P a b → edges_rel P b c → edges_rel P a c.
Proof. apply edges_rel_compose, P_trans. Qed.

Lemma edges_rel_insert es e d d' :
  es !! e = Some d → P d d' → edges_rel P es (<[e := d']> es).
Proof.
  intros He HP e'. destruct (decide (e = e')) as [<-|Hne].
  - rewrite lookup_insert_eq, He. by constructor.
  - rewrite lookup_insert_ne by done. apply edges_rel_refl.
Qed.

Lemma add_penalty_rel e pen es :
  ok pen → edges_rel P es (add_penalty e pen es).1.
Proof.
  intros Hok. unfold add_penalty.
  destruct (es !! e) as [d|] eqn:He; simpl; [|apply edges_rel_refl].
  destruct (add_num "weight" pen d) as [d1|] eqn:Hw; simpl;
    [|apply edges_rel_refl].
  destruct (get_num d1 "obstacle_score" 0) as [s|]; simpl;
    (eapply edges_rel_insert; [done|]); eauto.
Qed.

Lemma apply_penalties_rel w l :
  (∀ dist, (dist <= 100)%Q → ok (w * distance_factor dist)%Q) →
  ∀ es, edges_rel P es (apply_penalties w l es).
Proof.
  intros Hok. induction l as [|[e dist] r IH]; intros es; simpl.
  - apply edges_rel_refl.
  - destruct (Qle_bool dist MAX_OBSTACLE_INFLUENCE) eqn:Hd; [|apply IH].
    apply Qle_bool_iff in Hd.
    pose proof (add_penalty_rel e (w * distance_factor dist)%Q es
                  (Hok _ Hd)) as Hstep.
    destruct (add_penalty e _ es) as [es' [|]]; simpl in Hstep; [|done].
    eapply edges_rel_trans; [exact Hstep | apply IH].
Qed.

Variable nearest_edges : graph → Q → Q → option (list (edge_key * Q)).

Lemma apply_obstacle_rel g ob :
  ok_obstacle ok ob →
  nodes (apply_obstacle nearest_edges g ob) = nodes g
  ∧ edges_rel P (edges g) (edges (apply_obstacle nearest_edges g ob)).
Proof.
  intros Hok. unfold apply_obstacle.
  destruct (unset_location ob); [split; [done | apply edges_rel_refl]|].
  destruct (nearest_edges _ _ _) as [l|]; simpl;
    [|split; [done | apply edges_rel_refl]].
  split; [done|]. by apply apply_penalties_rel.
Qed.

Lemma obstacles_rel obstacles :
  Forall (ok_obstacle ok) obstacles →
  ∀ g, nodes (foldl (apply_obstacle nearest_edges) g obstacles) = nodes g
       ∧ edges_rel P (edges g)
           (edges (foldl (apply_obstacle nearest_edges) g obstacles)).
Proof.
  induction 1 as [|ob r Hob _ IH]; intros g; simpl.
  - split; [done | apply edges_rel_refl].
  - destruct (IH (apply_obstacle nearest_edges g ob)) as [Hn He].
    destruct (apply_obstacle_rel g ob Hob) as [Hn' He'].
    split; [congruence|]. eapply edges_rel_trans; eauto.
Qed.
End ObstacleLoopInvariant.

(** ** Frame of the weight calculator *)

Lemma frame_refl d : frame d d.
Proof. by intros k _. Qed.

Lemma frame_trans a b c : frame a b → frame b c → frame a c.
Proof. intros Hab Hbc k Hk. rewrite (Hbc k Hk). by apply Hab. Qed.

Lemma frame_insert d k v : k ∈ written → frame d (<[k := v]> d).
Proof.
  intros Hk k' Hk'. apply lookup_insert_ne. intros ->. contradiction.
Qed.

Lemma written_weight : "weight"%string ∈ written.
Proof. unfold written. rewrite !elem_of_cons. tauto. Qed.

Lemma written_score : "obstacle_score"%string ∈ written.
Proof. unfold written. rewrite !elem_of_cons. tauto. Qed.

Lemma written_original : "original_obstacle_score"%string ∈ written.
Proof. unfold written. rewrite !elem_of_cons. tauto. Qed.

Lemma length_not_written : "length"%string ∉ written.
Proof.
  unfold written. rewrite !not_elem_of_cons.
  repeat split; try done. apply not_elem_of_nil.
Qed.

Lemma frame_add_num k x d d' :
  k ∈ written → add_num k x d = Some d' → frame d d'.
Proof.
  intros Hk H. apply add_num_eq in H as (n & _ & ->). by apply frame_insert.
Qed.

Lemma frame_weight_step (c : bool) (m : option Q) (f : Q → Q) d d' :
  (if c then x ← m; add_num "weight" (f x) d else Some d) = Some d' →
  frame d d'.
Proof.
  destruct c; [|by intros [= <-]; apply frame_refl].
  destruct m as [x|]; simpl; [|done].
  apply frame_add_num, written_weight.
Qed.

Lemma init_edge_frame p d d' : init_edge p d = Some d' → frame d d'.
Proof.
  unfold init_edge. intros H.
  set (len := default (VNum 0) (d !! "length")) in H.
  set (d0 := <["weight" := len]> d) in H.
  assert (frame d d0) as F0 by apply frame_insert, written_weight.
  destruct (if avoid_stairs p && _ then _ else _) as [d1|] eqn:E1;
    simpl in H; [|done].
  apply (frame_weight_step _ _ (λ l, l * 100)%Q) in E1.
  destruct (get_num d1 "width" 2) as [w|]; simpl in H; [|done].
  destruct (if Qlt_bool w _ then _ else _) as [d2|] eqn:E2;
    simpl in H; [|done].
  assert (frame d1 d2) as F2.
  { destruct (Qlt_bool w _); [|by injection E2 as <-; apply frame_refl].
    destruct (py_div _ _) as [wp|]; simpl in E2; [|done].
    exact (frame_weight_step true (as_num len) (λ l, l * wp * 10)%Q _ _ E2). }
  clear E2.
  destruct (get_num d2 "grade" 0) as [gr|]; simpl in H; [|done].
  destruct (if Qlt_bool _ (Qabs gr) then _ else _) as [d3|] eqn:E3;
    simpl in H; [|done].
  assert (frame d2 d3) as F3.
  { destruct (Qlt_bool _ (Qabs gr)); [|by injection E3 as <-; apply frame_refl].
    destruct (py_div _ _) as [sp|]; simpl in E3; [|done].
    exact (frame_weight_step true (as_num len) (λ l, l * sp * 20)%Q _ _ E3). }
  injection H as <-.
  eapply frame_trans; [|apply frame_insert, written_original].
  eauto using frame_trans.
Qed.

(** C10: the weight calculator only writes the attributes [weight],
    [obstacle_score] and [original_obstacle_score] of edges: every other
    edge attribute (length, grade, stairs, width, surface, lit, ...) keeps
    its value, the nodes and their attributes are unchanged, and no edge
    or node is added or removed. *)
Theorem calculate_obstacle_weights_frame
    (nearest_edges : graph → Q → Q → option (list (edge_key * Q)))
    (g g' : graph) (obstacles : list obstacle) (prefs : option preferences) :
  calculate_obstacle_weights nearest_edges g obstacles prefs = Some g' →
  nodes g' = nodes g
  ∧ dom (edges g') = dom (edges g)
  ∧ ∀ e d d', edges g !! e = Some d → edges g' !! e = Some d' →
      ∀ k, k ∉ written → d' !! k = d !! k.
Proof.
  unfold calculate_obstacle_weights. intros H.
  destruct (init_weights _ g) as [g0|] eqn:Hinit; simpl in H; [|done].
  injection H as <-.
  destruct (init_weights_rel _ _ _ Hinit) as [Hn0 He0].
  destruct (obstacles_rel frame (λ _, True) frame_refl frame_trans
              (λ pen d d1 _ H, frame_add_num _ _ _ _ written_weight H)
              (λ pen d1 s _, frame_insert d1 _ _ written_score)
              nearest_edges obstacles) with (g := g0) as [Hn1 He1].
  { apply Forall_forall. by intros ob _ dist _. }
  assert (edges_rel frame (edges g)
            (edges (foldl (apply_obstacle nearest_edges) g0 obstacles))) as Hrel.
  { eapply edges_rel_compose; [|exact He0|exact He1].
    intros x y z Hxy Hyz. eapply frame_trans; [|exact Hyz].
    eapply init_edge_frame. exact Hxy. }
  split; [congruence|]. split; [by eapply edges_rel_dom|].
  intros e d d' Hd Hd'. by eapply (edges_rel_lookup frame).
Qed.

Lemma calculate_obstacle_weights_frame_witness :
  ∃ g',
    calculate_obstacle_weights lookup_at_50
      (one_edge_graph (plain_edge 10 0 2)) [stairs_obstacle] None = Some g'
    ∧ nodes g' = nodes (one_edge_graph (plain_edge 10 0 2))
    ∧ dom (edges g') = dom (edges (one_edge_graph (plain_edge 10 0 2)))
    ∧ ∀ e d d',
        edges (one_edge_graph (plain_edge 10 0 2)) !! e = Some d →
        edges g' !! e = Some d' →
        ∀ k, k ∉ written → d' !! k = d !! k.
Proof.
  assert (succeeds (calculate_obstacle_weights lookup_at_50
                      (one_edge_graph (plain_edge 10 0 2))
                      [stairs_obstacle] None) = true) as Hrun
    by (vm_compute; reflexivity).
  destruct (calculate_obstacle_weights lookup_at_50
              (one_edge_graph (plain_edge 10 0 2)) [stairs_obstacle] None)
    as [g'|] eqn:E; [clear Hrun|discriminate Hrun].
  exists g'. split; [reflexivity|].
  exact (calculate_obstacle_weights_frame _ _ _ _ _ E).
Defined.

(** ** Weights never drop below lengths *)

Lemma grows_refl d : grows d d.
Proof. split; [done|]. intros w Hw. exists w. split; [done | apply Qle_refl]. Qed.

Lemma grows_trans a b c : grows a b → grows b c → grows a c.
Proof.
  intros [Hl1 Hw1] [Hl2 Hw2]. split; [congruence|].
  intros w Hw. destruct (Hw1 w Hw) as (w1 & Hb & Hle1).
  destruct (Hw2 w1 Hb) as (w2 & Hc & Hle2).
  exists w2. split; [done | by eapply Qle_trans].
Qed.

Lemma grows_weight pen d d1 :
  (0 <= pen)%Q → add_num "weight" pen d = Some d1 → grows d d1.
Proof.
  intros Hpen H. apply add_num_eq in H as (n & Hn & ->). split.
  - by rewrite lookup_insert_ne.
  - intros w Hw. rewrite Hn in Hw. injection Hw as <-.
    exists (n + pen)%Q. rewrite lookup_insert_eq. split; [done | lra].
Qed.

Lemma grows_score pen d1 s :
  (0 <= pen)%Q → grows d1 (<["obstacle_score" := VNum (s + pen)%Q]> d1).
Proof.
  intros _. split; [by rewrite lookup_insert_ne|].
  intros w Hw. exists w. rewrite lookup_insert_ne by done.
  split; [done | apply Qle_refl].
Qed.

Lemma obstacle_weights_pos t q : obstacle_weights !! t = Some q → (0 < q)%Q.
Proof.
  intros H. apply elem_of_list_to_map_2 in H.
  repeat (apply elem_of_cons in H as [[= -> ->]|H]; [done|]).
  by apply elem_of_nil in H.
Qed.

Lemma distance_factor_nonneg dist :
  (dist <= 100)%Q → (0 <= distance_factor dist)%Q.
Proof.
  unfold distance_factor, MAX_OBSTACLE_INFLUENCE. intros H.
  assert (dist / 100 <= 1)%Q by (apply Qle_shift_div_r; lra).
  lra.
Qed.

Lemma obstacle_weight_nonneg ob :
  positive_score ob → (0 <= obstacle_weight ob)%Q.
Proof.
  intros Hs. unfold obstacle_weight.
  apply Qmult_le_0_compat; [|by apply Qlt_le_weak].
  destruct (obstacle_weights !! _) as [q|] eqn:E; simpl; [|done].
  apply Qlt_le_weak. by eapply obstacle_weights_pos.
Qed.

Lemma ratio_term_nonneg len a b c :
  (0 <= len)%Q → (0 <= a)%Q → (0 < b)%Q → (0 <= c)%Q →
  (0 <= len * (a / b) * c)%Q.
Proof.
  intros Hl Ha Hb Hc.
  apply Qmult_le_0_compat; [|done].
  apply Qmult_le_0_compat; [done|].
  unfold Qdiv. apply Qmult_le_0_compat; [done|].
  apply Qlt_le_weak. by apply Qinv_lt_0_compat.
Qed.

Lemma spec_preference_weight_ge p stairs len w gr :
  (0 <= len)%Q → (0 < max_slope p)%Q → (0 < minimum_width p)%Q →
  (len <= spec_preference_weight p stairs len w gr)%Q.
Proof.
  intros Hl Hs Hw. unfold spec_preference_weight.
  assert (0 <= (if avoid_stairs p && stairs then len * 100 else 0))%Q as H1.
  { destruct (_ && _); lra. }
  assert (0 <= (if Qlt_bool w (minimum_width p)
                then len * ((minimum_width p - w) / minimum_width p) * 10
                else 0))%Q as H2.
  { destruct (Qlt_bool w (minimum_width p)) eqn:E; [|lra].
    apply Qlt_bool_iff in E. apply ratio_term_nonneg; lra. }
  assert (0 <= (if Qlt_bool (max_slope p) (Qabs gr)
                then len * ((Qabs gr - max_slope p) / max_slope p) * 20
                else 0))%Q as H3.
  { destruct (Qlt_bool (max_slope p) (Qabs gr)) eqn:E; [|lra].
    apply Qlt_bool_iff in E. apply ratio_term_nonneg; lra. }
  lra.
Qed.

Lemma init_edge_enriched p d :
  enriched_edge d → (0 < max_slope p)%Q → (0 < minimum_width p)%Q →
  ∃ d' len W, init_edge p d = Some d'
              ∧ get_num d' "length" 0 = Some len
              ∧ d' !! "weight" = Some (VNum W) ∧ (len <= W)%Q.
Proof.
  intros (len & w & gr & Hl & Hlen & Hw & Hg) Hs Hm.
  pose proof (init_edge_weight p d len w gr Hl Hw Hg) as H.
  destruct (init_edge p d) as [d'|] eqn:Hi.
  - destruct H as (W & HW & Heq). exists d', len, W.
    split; [done|]. split; [|split; [done|]].
    + unfold get_num in *.
      by rewrite (init_edge_frame _ _ _ Hi "length" length_not_written).
    + rewrite Heq. by apply spec_preference_weight_ge.
  - destruct H as [[_ H]|[_ H]]; rewrite H in *;
      by apply Qlt_irrefl in Hs || apply Qlt_irrefl in Hm.
Qed.

(** C3, as amended: on a graph whose edges have a non-negative numeric
    length and a numeric width and grade, with obstacles of positive
    [obstacleScore] and preferences whose [maxSlope] and [minimumWidth]
    are positive, the weight calculator returns and every edge satisfies
    [weight >= length]. *)
Theorem weight_at_least_length
    (nearest_edges : graph → Q → Q → option (list (edge_key * Q)))
    (g : graph) (obstacles : list obstacle) (prefs : option preferences) :
  (∀ e d, edges g !! e = Some d → enriched_edge d) →
  (0 < max_slope (default no_preferences prefs))%Q →
  (0 < minimum_width (default no_preferences prefs))%Q →
  Forall positive_score obstacles →
  ∃ g', calculate_obstacle_weights nearest_edges g obstacles prefs = Some g'
        ∧ ∀ e d', edges g' !! e = Some d' →
            ∃ len W, get_num d' "length" 0 = Some len
                     ∧ d' !! "weight" = Some (VNum W) ∧ (len <= W)%Q.
Proof.
  intros Hen Hs Hm Hpos. unfold calculate_obstacle_weights.
  set (p := default no_preferences prefs) in *.
  destruct (init_weights_total p g) as [g0 Hinit].
  { intros e d Hd.
    destruct (init_edge_enriched p d (Hen e d Hd) Hs Hm) as (d' & _ & _ & -> & _).
    by eexists. }
  rewrite Hinit. simpl. eexists. split; [done|].
  destruct (init_weights_rel _ _ _ Hinit) as [_ He0].
  destruct (obstacles_rel grows (λ pen, (0 <= pen)%Q) grows_refl grows_trans
              grows_weight grows_score nearest_edges obstacles) with (g := g0)
    as [_ He1].
  { eapply Forall_impl; [exact Hpos|]. intros ob Hob dist Hd. simpl.
    apply Qmult_le_0_compat;
      [by apply obstacle_weight_nonneg | by apply distance_factor_nonneg]. }
  intros e d' Hd'.
  destruct (edges_rel_lookup_r _ _ _ _ _ He1 Hd') as (d0 & Hd0 & [Hlen Hgrow]).
  destruct (edges_rel_lookup_r _ _ _ _ _ He0 Hd0) as (d & Hd & Hi).
  destruct (init_edge_enriched p d (Hen e d Hd) Hs Hm)
    as (d0' & len & W & Hi' & Hl & HW & Hle).
  rewrite Hi in Hi'. injection Hi' as <-.
  destruct (Hgrow W HW) as (W' & HW' & Hle').
  exists len, W'. split; [|split; [done | by eapply Qle_trans]].
  unfold get_num in *. by rewrite Hlen.
Qed.

Lemma plain_edge_enriched :
  ∀ e d, edges (one_edge_graph (plain_edge 10 0 2)) !! e = Some d →
         enriched_edge d.
Proof.
  intros e d H. apply elem_of_list_to_map_2 in H.
  apply elem_of_cons in H as [[= -> ->]|H]; [|by apply elem_of_nil in H].
  exists 10%Q, 2%Q, 0%Q. repeat split; try reflexivity. done.
Qed.

Lemma weight_at_least_length_witness :
  ∃ g',
    calculate_obstacle_weights lookup_at_50
      (one_edge_graph (plain_edge 10 0 2)) [stairs_obstacle] None = Some g'
    ∧ ∀ e d', edges g' !! e = Some d' →
        ∃ len W, get_num d' "length" 0 = Some len
                 ∧ d' !! "weight" = Some (VNum W) ∧ (len <= W)%Q.
Proof.
  apply (weight_at_least_length lookup_at_50
           (one_edge_graph (plain_edge 10 0 2)) [stairs_obstacle] None).
  - exact plain_edge_enriched.
  - reflexivity.
  - reflexivity.
  - repeat constructor.
Defined.

(** C3, as stated, fails: with [maxSlope = -0.1] a flat edge of length 10
    gets weight -190, and with [minimumWidth = -1] an edge of width -5
    gets weight -390; nothing in the calculator rejects such preferences. *)
Lemma weight_below_length_negative_prefs :
  (∃ W len,
     calculate_obstacle_weights no_lookup (one_edge_graph (plain_edge 10 0 2)) []
       (Some (Preferences (Some (-1 # 10)%Q) None None))
       ≫= (λ g', edge_num g' (1, 2, 0) "weight" 0) = Some W
     ∧ edge_num (one_edge_graph (plain_edge 10 0 2)) (1, 2, 0) "length" 0
       = Some len
     ∧ (W < len)%Q)
  ∧ (∃ W len,
     calculate_obstacle_weights no_lookup
       (one_edge_graph (plain_edge 10 0 (-5)%Q)) []
       (Some (Preferences None None (Some (-1)%Q)))
       ≫= (λ g', edge_num g' (1, 2, 0) "weight" 0) = Some W
     ∧ edge_num (one_edge_graph (plain_edge 10 0 (-5)%Q)) (1, 2, 0) "length" 0
       = Some len
     ∧ (W < len)%Q).
Proof.
  split.
  - exists (-1900 # 10)%Q, 10%Q.
    split; [vm_compute; reflexivity|]. split; vm_compute; reflexivity.
  - exists (-390)%Q, 10%Q.
    split; [vm_compute; reflexivity|]. split; vm_compute; reflexivity.
Qed.

(** ** The penalty of one obstacle *)






(** ** Enrichment: the grade penalty *)

Lemma py_int_floor (x : Q) : (0 <= x)%Q → py_int x = Qfloor x.
Proof.
  destruct x as [n d]. unfold Qle, py_int, Qfloor. simpl. intros H.
  apply Z.quot_div_nonneg; lia.
Qed.

Lemma py_min_inject (a b : Z) :
  py_min (inject_Z a) (inject_Z b) = inject_Z (Z.min a b).
Proof.
  unfold py_min. destruct (Qlt_bool (inject_Z b) (inject_Z a)) eqn:E.
  - apply Qlt_bool_iff in E. rewrite <- Zlt_Qlt in E. f_equal. lia.
  - apply Qlt_bool_false in E. rewrite <- Zle_Qle in E. f_equal. lia.
Qed.







(** ** Enrichment: the width tag *)

Lemma prefix_cons a s1 b s2 :
  String.prefix (String a s1) (String b s2)
  = if ascii_dec a b then String.prefix s1 s2 else false.
Proof. reflexivity. Qed.

Lemma prefix_m_cons old c r :
  Ascii.eqb c "m" = false → String.prefix (String "m" old) (String c r) = false.
Proof.
  intros H. rewrite prefix_cons. destruct (ascii_dec "m" c) as [<-|]; done.
Qed.

Lemma replace_m_no_m s : no_m (replace "m" "" s) = true.
Proof.
  unfold replace. induction s as [|c r IH]; [done|].
  cbn [replace_go]. destruct (Ascii.eqb c "m") eqn:E.
  - apply Ascii.eqb_eq in E as ->. rewrite prefix_cons.
    destruct (ascii_dec "m" "m") as [_|]; [|done].
    replace (String.prefix "" r) with true by by destruct r.
    exact IH.
  - rewrite prefix_m_cons by done. cbn [no_m]. by rewrite E, IH.
Qed.

Lemma replace_no_m_id old c s :
  no_m s = true → replace (String "m" old) c s = s.
Proof.
  unfold replace. induction s as [|a r IH]; [done|].
  cbn [no_m replace_go]. intros H. apply andb_true_iff in H as [Ha Hr].
  apply negb_true_iff in Ha. rewrite prefix_m_cons by done.
  by rewrite IH.
Qed.

Lemma lstrip_no_m s : no_m s = true → no_m (lstrip s) = true.
Proof.
  induction s as [|c r IH]; [done|]. intros H. cbn [lstrip].
  destruct (is_space c); [|done].
  cbn [no_m] in H. apply andb_true_iff in H as [_ Hr]. auto.
Qed.

Lemma rstrip_no_m s : no_m s = true → no_m (rstrip s) = true.
Proof.
  induction s as [|c r IH]; [done|]. intros H. cbn [rstrip].
  cbn [no_m] in H. apply andb_true_iff in H as [Hc Hr]. specialize (IH Hr).
  destruct (rstrip r) as [|c' r'].
  - destruct (is_space c); [done|]. cbn [no_m]. by rewrite Hc.
  - cbn [no_m] in *. by rewrite Hc, IH.
Qed.

Lemma contains_cm_no_m s : no_m s = true → contains "cm" s = false.
Proof.
  induction s as [|c r IH]; [done|]. intros H.
  cbn [no_m] in H. apply andb_true_iff in H as [Hc Hr].
  cbn [contains]. rewrite (IH Hr), orb_false_r.
  rewrite prefix_cons. destruct (ascii_dec "c" c); [|done].
  destruct r as [|c' r']; [done|].
  cbn [no_m] in Hr. apply andb_true_iff in Hr as [Hc' _].
  apply negb_true_iff in Hc'. by apply prefix_m_cons.
Qed.

(** C2: the width parser removes every letter m before it looks for the
    suffix [cm], so the centimetre branch is never taken and the suffix
    [meters] is never matched: ["250cm"] and ["2.5 meters"] fall back to
    the default 2.0 instead of 2.5, while ["2.5 m"] gives 2.5 and
    ["garbage"] gives 2.0. *)
Theorem width_cm_branch_unreachable :
  (∀ s, contains "cm" (strip (replace "meters" "" (replace "m" "" s))) = false)
  ∧ (∀ s, parse_width s = default 2%Q (py_float (strip (replace "m" "" s))))
  ∧ parse_width "250cm" = 2%Q
  ∧ parse_width "2.5 meters" = 2%Q
  ∧ (parse_width "2.5 m" == 25 # 10)%Q
  ∧ parse_width "garbage" = 2%Q
  ∧ (enrich_edge raw_steps_edge ≫= λ d, get_num d "width" 0) = Some 2%Q.
Proof.
  assert (∀ s, contains "cm" (strip (replace "meters" "" (replace "m" "" s)))
               = false) as Hdead.
  { intros s. apply contains_cm_no_m. unfold strip.
    apply rstrip_no_m, lstrip_no_m.
    rewrite replace_no_m_id; apply replace_m_no_m. }
  split; [exact Hdead|].
  split; [|repeat split; vm_compute; reflexivity].
  intros s. unfold parse_width. rewrite Hdead.
  rewrite (replace_no_m_id "eters" "" _ (replace_m_no_m s)).
  by destruct (py_float _).
Qed.

(** ** Route planner: the result of a successful call *)






(** ** Route planner: the search only returns paths of the graph *)

Lemma out_edges_has_edge g v u d : (u, d) ∈ out_edges g v → has_edge g v u.
Proof.
  unfold out_edges. intros H. apply list_elem_of_omap in H as ([[[a b] k] d'] & Hin & Heq).
  simpl in Heq. destruct (decide (a = v)) as [->|]; [|done].
  injection Heq as -> ->. apply elem_of_map_to_list in Hin.
  by exists k, d.
Qed.

Lemma relax_sound g s v dv pv final seen ud seen' :
  walk g s v pv → has_edge g v ud.1 → sound_entries g s seen →
  relax dv pv final seen ud = Some seen' → sound_entries g s seen'.
Proof.
  intros Hv He Hs. unfold relax. intros H.
  apply bind_Some in H as (cost & _ & H).
  assert (sound_entries g s (<[ud.1 := ((dv + cost)%Q, pv ++ [ud.1])]> seen)) as Hins.
  { intros w dp. destruct (decide (ud.1 = w)) as [<-|Hne].
    - rewrite lookup_insert_eq. intros [= <-]. simpl. by eapply walk_step.
    - rewrite lookup_insert_ne by done. apply Hs. }
  destruct (decide (ud.1 ∈ final)); [by apply (inj Some) in H as <-|].
  destruct (seen !! ud.1) as [[du pu]|]; [|by apply (inj Some) in H as <-].
  destruct (Qlt_bool _ _); by apply (inj Some) in H as <-.
Qed.

Lemma relax_all_sound g s v dv pv final l :
  walk g s v pv → (∀ ud, ud ∈ l → has_edge g v ud.1) →
  ∀ seen seen', sound_entries g s seen →
    relax_all dv pv final l seen = Some seen' → sound_entries g s seen'.
Proof.
  intros Hv. induction l as [|ud r IH]; intros Hl seen seen' Hs H; simpl in H.
  - by apply (inj Some) in H as <-.
  - apply bind_Some in H as (seen1 & H1 & H).
    eapply IH; [| |exact H].
    + intros x Hx. apply Hl, elem_of_cons. by right.
    + eapply relax_sound; [exact Hv| |exact Hs|exact H1].
      apply Hl, elem_of_cons. by left.
Qed.

Lemma pick_min_lookup final seen x :
  pick_min final seen = Some x → seen !! x.1 = Some x.2.
Proof.
  unfold pick_min.
  assert (∀ l, foldr (λ x acc,
                 if decide (x.1 ∈ final) then acc
                 else match acc with
                      | None => Some x
                      | Some y => if Qle_bool x.2.1 y.2.1 then Some x else Some y
                      end) None l = Some x → x ∈ l) as Hin.
  { induction l as [|a l IH]; simpl; [done|].
    intros H. apply elem_of_cons.
    destruct (decide (a.1 ∈ final)); [right; auto|].
    destruct (foldr _ _ _) as [y|]; [|left; congruence].
    destruct (Qle_bool _ _); [left; congruence | right; auto]. }
  intros H. apply Hin in H. destruct x as [v dp].
  by apply elem_of_map_to_list in H.
Qed.

Lemma dijkstra_loop_sound g s target fuel :
  ∀ final seen seen', sound_entries g s seen →
    dijkstra_loop g target fuel final seen = Some seen' →
    sound_entries g s seen'.
Proof.
  induction fuel as [|n IH]; intros final seen seen' Hs H; simpl in H.
  - by apply (inj Some) in H as <-.
  - destruct (pick_min final seen) as [[v [dv pv]]|] eqn:Hp;
      [|by apply (inj Some) in H as <-].
    destruct (decide (v = target)); [by apply (inj Some) in H as <-|].
    apply bind_Some in H as (seen1 & H1 & H).
    eapply IH; [|exact H].
    apply pick_min_lookup in Hp. simpl in Hp.
    eapply relax_all_sound; [| |exact Hs|exact H1].
    + apply (Hs v (dv, pv) Hp).
    + intros [u d] Hin. simpl. by eapply out_edges_has_edge.
Qed.

Lemma shortest_path_sound g s t p :
  shortest_path g s t = Some p → walk g s t p.
Proof.
  unfold shortest_path. destruct (decide _); [|done]. intros H.
  apply bind_Some in H as (seen & Hrun & H).
  apply bind_Some in H as (dp & Hdp & H).
  apply (inj Some) in H as <-.
  eapply (dijkstra_loop_sound g s t _ _ _ seen); [|exact Hrun|exact Hdp].
  intros v dp' Hv. apply lookup_singleton_Some in Hv as [<- <-]. constructor.
Qed.

(** ** Route planner: the search finds every reachable target *)

Lemma size_list_to_set_le (l : list Z) : (size (list_to_set l : gset Z) ≤ length l)%nat.
Proof.
  induction l as [|x l IH]; cbn [list_to_set length].
  - by rewrite size_empty.
  - rewrite size_union_alt, size_singleton.
    pose proof (subseteq_size (list_to_set l ∖ {[x]}) (list_to_set l : gset Z)) as H.
    assert (list_to_set l ∖ {[x]} ⊆ (list_to_set l : gset Z)) as Hs
      by by apply subseteq_difference_l.
    specialize (H Hs). lia.
Qed.

Lemma reach_bound_size g s : (size (reach_bound g s) ≤ S (size (edges g)))%nat.
Proof.
  unfold reach_bound. rewrite size_union_alt, size_singleton.
  set (hs := list_to_set _ : gset Z).
  pose proof (subseteq_size (hs ∖ {[s]}) hs) as H.
  assert (hs ∖ {[s]} ⊆ hs) as Hs by by apply subseteq_difference_l.
  specialize (H Hs).
  pose proof (size_list_to_set_le
                ((λ x : Z * Z * Z * attrs, x.1.1.2) <$> map_to_list (edges g))) as Hl.
  rewrite length_fmap, length_map_to_list in Hl. fold hs in Hl. lia.
Qed.

Lemma has_edge_head_bound g s u v : has_edge g u v → v ∈ reach_bound g s.
Proof.
  intros (k & d & He). unfold reach_bound. apply elem_of_union. right.
  apply elem_of_list_to_set, list_elem_of_fmap.
  exists ((u, v, k), d). split; [done|]. by apply elem_of_map_to_list.
Qed.

Lemma has_edge_out_edges g v u : has_edge g v u → ∃ d, (u, d) ∈ out_edges g v.
Proof.
  intros (k & d & He). exists d. unfold out_edges.
  apply list_elem_of_omap. exists ((v, u, k), d). split.
  - by apply elem_of_map_to_list.
  - simpl. by rewrite decide_True.
Qed.

Lemma out_edges_numeric g v u d :
  numeric_costs g → (u, d) ∈ out_edges g v → is_Some (get_num d "weight" 1).
Proof.
  intros Hnum H. apply list_elem_of_omap in H as ([[[a b] k] d'] & Hin & Heq).
  simpl in Heq. destruct (decide (a = v)); [|done].
  injection Heq as -> ->. apply elem_of_map_to_list in Hin. by eapply Hnum.
Qed.

Lemma relax_complete dv pv final seen (ud : Z * attrs) :
  is_Some (get_num ud.2 "weight" 1) →
  ∃ seen', relax dv pv final seen ud = Some seen'
           ∧ dom seen ⊆ dom seen'
           ∧ dom seen' ⊆ dom seen ∪ {[ud.1]}
           ∧ (ud.1 ∉ final → ud.1 ∈ dom seen').
Proof.
  intros [cost Hc]. unfold relax. rewrite Hc. simpl.
  destruct (decide (ud.1 ∈ final)) as [Hf|Hf].
  { exists seen. split; [done|]. split; [done|].
    split; [apply union_subseteq_l | done]. }
  destruct (seen !! ud.1) as [[du pu]|] eqn:Hl.
  - assert (ud.1 ∈ dom seen) as Hin by (apply elem_of_dom; eauto).
    destruct (Qlt_bool _ _).
    + eexists. split; [done|]. rewrite dom_insert_L.
      split; [apply union_subseteq_r|]. split; [by rewrite (comm_L union)|].
      intros _. apply elem_of_union. left. by apply elem_of_singleton.
    + exists seen. split; [done|]. split; [done|].
      split; [apply union_subseteq_l | done].
  - eexists. split; [done|]. rewrite dom_insert_L.
    split; [apply union_subseteq_r|]. split; [by rewrite (comm_L union)|].
    intros _. apply elem_of_union. left. by apply elem_of_singleton.
Qed.

Lemma relax_all_complete dv pv final (l : list (Z * attrs)) :
  (∀ ud, ud ∈ l → is_Some (get_num ud.2 "weight" 1)) →
  ∀ seen, ∃ seen',
    relax_all dv pv final l seen = Some seen'
    ∧ dom seen ⊆ dom seen'
    ∧ dom seen' ⊆ dom seen ∪ list_to_set l.*1
    ∧ (∀ ud, ud ∈ l → ud.1 ∉ final → ud.1 ∈ dom seen').
Proof.
  induction l as [|ud r IH]; intros Hnum seen; simpl.
  - exists seen. split; [done|]. split; [done|].
    split; [apply union_subseteq_l|].
    intros ud H. by apply elem_of_nil in H.
  - destruct (relax_complete dv pv final seen ud) as (s1 & -> & H1 & H2 & H3).
    { apply Hnum, elem_of_cons. by left. }
    simpl. destruct (IH (λ x Hx, Hnum x (proj2 (elem_of_cons _ _ _) (or_intror Hx))) s1)
      as (s2 & -> & H4 & H5 & H6).
    exists s2. split; [done|]. split; [by etrans|]. split.
    { etrans; [exact H5|]. cbn [fmap list_fmap list_to_set].
      apply union_least; [|apply union_subseteq_r', union_subseteq_r].
      etrans; [exact H2|]. apply union_least; [apply union_subseteq_l|].
      apply union_subseteq_r', union_subseteq_l. }
    intros x Hx Hxf. apply elem_of_cons in Hx as [->|Hx]; [|by apply H6].
    apply H4. by apply H3.
Qed.

Lemma pick_min_spec final seen :
  match pick_min final seen with
  | Some x => seen !! x.1 = Some x.2 ∧ x.1 ∉ final
  | None => dom seen ⊆ final
  end.
Proof.
  unfold pick_min.
  assert (∀ l : list (Z * (Q * list Z)),
            match foldr (λ x acc,
                     if decide (x.1 ∈ final) then acc
                     else match acc with
                          | None => Some x
                          | Some y => if Qle_bool x.2.1 y.2.1 then Some x else Some y
                          end) None l with
            | Some x => x ∈ l ∧ x.1 ∉ final
            | None => ∀ y, y ∈ l → y.1 ∈ final
            end) as Hl.
  { induction l as [|a l IH]; simpl.
    - intros y Hy. by apply elem_of_nil in Hy.
    - destruct (decide (a.1 ∈ final)) as [Ha|Ha].
      + destruct (foldr _ _ _) as [x|].
        * destruct IH as [Hin Hnf]. split; [|done]. apply elem_of_cons. by right.
        * intros y Hy. apply elem_of_cons in Hy as [->|Hy]; auto.
      + destruct (foldr _ _ _) as [x|].
        * destruct IH as [Hin Hnf]. destruct (Qle_bool _ _).
          -- split; [|done]. apply elem_of_cons. by left.
          -- split; [|done]. apply elem_of_cons. by right.
        * split; [|done]. apply elem_of_cons. by left. }
  specialize (Hl (map_to_list seen)).
  destruct (foldr _ _ _) as [[v dp]|].
  - destruct Hl as [Hin Hnf]. split; [|done]. by apply elem_of_map_to_list in Hin.
  - intros v Hv. apply elem_of_dom in Hv as [dp Hdp].
    apply (Hl (v, dp)). by apply elem_of_map_to_list.
Qed.

Lemma walk_in_closed g s t p (X : gset Z) :
  walk g s t p → s ∈ X → (∀ v u, v ∈ X → has_edge g v u → u ∈ X) → t ∈ X.
Proof. induction 1 as [|u t p _ IH He]; intros Hs Hc; [done|]. eauto. Qed.

Lemma walk_target_bound g s t p : walk g s t p → t ∈ reach_bound g s.
Proof.
  intros H. inversion H as [|u t' p' _ He]; subst.
  - unfold reach_bound. apply elem_of_union. left. by apply elem_of_singleton.
  - by eapply has_edge_head_bound.
Qed.

Lemma out_edges_heads_bound g s v :
  list_to_set (out_edges g v).*1 ⊆ reach_bound g s.
Proof.
  intros u Hu. apply elem_of_list_to_set, list_elem_of_fmap in Hu
    as ([u' d] & -> & Hin).
  eapply has_edge_head_bound, out_edges_has_edge, Hin.
Qed.

Lemma dijkstra_loop_complete g s t :
  numeric_costs g → (∃ p, walk g s t p) →
  ∀ fuel final seen,
    search_inv g s t final seen →
    (size (reach_bound g s ∖ {[t]}) < size final + fuel)%nat →
    ∃ seen', dijkstra_loop g t fuel final seen = Some seen' ∧ t ∈ dom seen'.
Proof.
  intros Hnum [p Hwalk]. induction fuel as [|n IH]; intros final seen Hinv Hsize.
  - exfalso. destruct Hinv as [Hf _ _ Ht Hb].
    assert (final ⊆ reach_bound g s ∖ {[t]}) as Hsub.
    { intros x Hx. apply elem_of_difference. split; [by apply Hb, Hf|].
      intros Hxt. apply elem_of_singleton in Hxt as ->. contradiction. }
    apply subseteq_size in Hsub. lia.
  - cbn [dijkstra_loop]. pose proof (pick_min_spec final seen) as Hpick.
    destruct (pick_min final seen) as [[v [dv pv]]|].
    + destruct Hpick as [Hl Hnf]. simpl in Hl, Hnf.
      destruct (decide (v = t)) as [->|Hvt].
      { exists seen. split; [done|]. apply elem_of_dom. eauto. }
      destruct (relax_all_complete dv pv final (out_edges g v)) with (seen := seen)
        as (seen' & Hrun & Hmono & Hnew & Hall).
      { intros [u d] Hin. simpl. by eapply out_edges_numeric. }
      rewrite Hrun. simpl.
      assert (v ∈ dom seen) as Hv by (apply elem_of_dom; eauto).
      destruct Hinv as [Hf Hc Hs Ht Hb].
      apply IH.
      * split.
        -- apply union_least; [|by etrans].
           apply singleton_subseteq_l. by apply Hmono.
        -- intros v' u Hv' He. apply elem_of_union in Hv' as [Hv'|Hv'].
           ++ apply elem_of_singleton in Hv' as ->.
              destruct (has_edge_out_edges _ _ _ He) as [d Hin].
              destruct (decide (u ∈ final)) as [Hu|Hu].
              ** by apply Hmono, Hf.
              ** by apply (Hall (u, d) Hin).
           ++ apply Hmono. by eapply Hc.
        -- by apply Hmono.
        -- intros Hin. apply elem_of_union in Hin as [Hin|Hin]; [|done].
           apply elem_of_singleton in Hin. congruence.
        -- etrans; [exact Hnew|].
           apply union_least; [done | apply out_edges_heads_bound].
      * assert (size ({[v]} ∪ final) = S (size final)) as ->; [|lia].
        rewrite (size_union (C := gset Z) {[v]} final), size_singleton; [done|].
        intros x Hx Hx'. apply elem_of_singleton in Hx as ->. contradiction.
    + exists seen. split; [done|]. destruct Hinv as [Hf Hc Hs Ht Hb].
      eapply walk_in_closed; [exact Hwalk | done |].
      intros v u Hv He. eapply Hc; [|exact He]. by apply Hpick.
Qed.

(** The search finds a path whenever the graph has one: the rounds it is
    given always suffice. *)
Lemma shortest_path_complete g s t :
  numeric_costs g → s ∈ dom (nodes g) → t ∈ dom (nodes g) →
  (∃ p, walk g s t p) → is_Some (shortest_path g s t).
Proof.
  intros Hnum Hs Ht [p Hwalk]. unfold shortest_path.
  rewrite decide_True by done.
  destruct (dijkstra_loop_complete g s t Hnum (ex_intro _ p Hwalk)
              (S (size (edges g))) ∅ {[s := (0%Q, [s])]})
    as (seen' & -> & Hin).
  - split.
    + apply empty_subseteq.
    + intros v u Hv. by apply elem_of_empty in Hv.
    + rewrite dom_singleton_L. by apply elem_of_singleton.
    + apply not_elem_of_empty.
    + rewrite dom_singleton_L. unfold reach_bound. apply union_subseteq_l.
  - rewrite size_empty.
    pose proof (reach_bound_size g s) as Hb.
    rewrite size_difference, size_singleton.
    2:{ apply singleton_subseteq_l. by eapply walk_target_bound. }
    lia.
  - simpl. apply elem_of_dom in Hin as [dp ->]. simpl. by eexists.
Qed.

(** C8: when the graph has no path from the node nearest the origin to
    the node nearest the destination, the route planner returns its error
    result ([None]); no route, partial or other, is produced. *)
Theorem no_path_no_route
    (nearest_nodes : graph → Q → Q → option Z)
    (g : graph) (origin destination : Q * Q) (s t : Z) :
  nearest_nodes g origin.2 origin.1 = Some s →
  nearest_nodes g destination.2 destination.1 = Some t →
  (¬ ∃ p, walk g s t p) →
  find_accessible_route nearest_nodes g origin destination = None.
Proof.
  intros Hs Ht Hno. unfold find_accessible_route. rewrite Hs, Ht. simpl.
  destruct (shortest_path g s t) as [p|] eqn:Hp; [|done].
  exfalso. apply Hno. exists p. by apply shortest_path_sound.
Qed.

Lemma one_way_back_walks t p : walk one_way_back_graph 1 t p → t = 1.
Proof.
  induction 1 as [|u t p _ IH (k & d & He)]; [done|]. subst u.
  unfold one_way_back_graph in He. simpl in He.
  apply lookup_singleton_Some in He as [[=] _].
Qed.

Lemma no_path_no_route_witness :
  find_accessible_route nearest_of_two one_way_back_graph
    (0%Q, 0%Q) (0%Q, 1 # 1000) = None.
Proof.
  apply (no_path_no_route nearest_of_two one_way_back_graph
           (0%Q, 0%Q) (0%Q, 1 # 1000) 1 2).
  - reflexivity.
  - reflexivity.
  - intros [p Hp]. apply one_way_back_walks in Hp. discriminate Hp.
Defined.

(** C5: the obstacle flag is read from the edge of key 0 between two
    consecutive nodes, not from the edge the search costed. With steps
    under key 0 and a plain path under key 1, the path from 1 to 2 is
    costed with the edge of key 1 (weight 12 against 1010), whose obstacle
    scores are both 0, and the planner still reports obstacles. *)
Theorem has_obstacles_reads_key_zero :
  (weighted_parallel_graph ≫= λ g, shortest_path g 1 2) = Some [1; 2]
  ∧ (weighted_parallel_graph ≫= λ g, edge_num g (1, 2, 0) "weight" 1)
    = Some 1010%Q
  ∧ (weighted_parallel_graph ≫= λ g, edge_num g (1, 2, 1) "weight" 1)
    = Some 12%Q
  ∧ (weighted_parallel_graph ≫= λ g, edge_num g (1, 2, 1) "obstacle_score" 0)
    = Some 0%Q
  ∧ (weighted_parallel_graph
       ≫= λ g, edge_num g (1, 2, 1) "original_obstacle_score" 0) = Some 0%Q
  ∧ (weighted_parallel_graph
       ≫= λ g, hasObstacles
                 <$> find_accessible_route nearest_of_two g
                       (0%Q, 0%Q) (0%Q, 1 # 1000))
    = Some true.
Proof. repeat split; vm_compute; reflexivity. Qed.

(** ** Graph exchange format: the round trip *)











(** * Further properties

    ** Enrichment: the attributes of an edge *)

Lemma not_enriched_key k :
  k ∉ enriched_keys ↔
  k ≠ "stairs"%string ∧ k ≠ "width"%string ∧ k ≠ "surface"%string
  ∧ k ≠ "lit"%string ∧ k ≠ "obstacle_score"%string.
Proof.
  unfold enriched_keys. rewrite !not_elem_of_cons.
  pose proof (not_elem_of_nil k). tauto.
Qed.

Ltac enriched_lookup :=
  repeat first
    [ rewrite lookup_insert_eq
    | rewrite lookup_insert_ne by (done || congruence) ].

Ltac tag_state_tac H :=
  destruct H as (H1 & H2 & H3 & H4 & (s' & Hs & Hs') & H5);
  unfold tag_state; repeat split;
  [ enriched_lookup; done ..
  | exists s'; split; [enriched_lookup; done | done]
  | intros k Hk; pose proof Hk as Hk'; apply not_enriched_key in Hk';
    destruct Hk' as (? & ? & ? & ? & ?); enriched_lookup; by apply H5 ].

Lemma tag_state_init d :
  tag_state d
    (<["obstacle_score" := VNum 0]>
       (<["lit" := VStr "unknown"]>
          (<["surface" := VStr "unknown"]>
             (<["width" := VNum 2]> (<["stairs" := VStr "no"]> d)))))
    (VStr "no") (VNum 2) (VStr "unknown") (VStr "unknown") 0.
Proof.
  unfold tag_state. repeat split; [enriched_lookup; done .. | |].
  - exists 0%Q. split; [enriched_lookup; done | done].
  - intros k Hk. apply not_enriched_key in Hk.
    destruct Hk as (? & ? & ? & ? & ?). by enriched_lookup.
Qed.

Lemma tag_state_stairs d d1 st w su li s v :
  tag_state d d1 st w su li s →
  tag_state d (<["stairs" := v]> d1) v w su li s.
Proof. intros H. tag_state_tac H. Qed.

Lemma tag_state_width d d1 st w su li s v :
  tag_state d d1 st w su li s →
  tag_state d (<["width" := v]> d1) st v su li s.
Proof. intros H. tag_state_tac H. Qed.

Lemma tag_state_surface d d1 st w su li s v :
  tag_state d d1 st w su li s →
  tag_state d (<["surface" := v]> d1) st w v li s.
Proof. intros H. tag_state_tac H. Qed.

Lemma tag_state_lit d d1 st w su li s v :
  tag_state d d1 st w su li s →
  tag_state d (<["lit" := v]> d1) st w su v s.
Proof. intros H. tag_state_tac H. Qed.

Lemma tag_state_Qeq d d1 st w su li s s2 :
  (s == s2)%Q → tag_state d d1 st w su li s → tag_state d d1 st w su li s2.
Proof.
  intros Heq (H1 & H2 & H3 & H4 & (s' & Hs & Hs') & H5).
  repeat split; try done. exists s'. split; [done|]. by rewrite Hs'.
Qed.

Lemma tag_state_score d d1 st w su li s x :
  tag_state d d1 st w su li s →
  ∃ d2, add_num "obstacle_score" x d1 = Some d2
        ∧ tag_state d d2 st w su li (s + x).
Proof.
  intros (H1 & H2 & H3 & H4 & (s' & Hs & Hs') & H5).
  exists (<["obstacle_score" := VNum (s' + x)%Q]> d1). split.
  - unfold add_num. by rewrite Hs.
  - repeat split; try by rewrite lookup_insert_ne.
    + exists (s' + x)%Q. split; [by rewrite lookup_insert_eq | by rewrite Hs'].
    + intros k Hk. pose proof Hk as Hk'. apply not_enriched_key in Hk'.
      rewrite lookup_insert_ne by (intros <-; tauto). by apply H5.
Qed.

Lemma check_stairs_state tags d d1 st w su li s :
  tag_state d d1 st w su li s →
  ∃ d2, check_stairs tags d1 = Some d2
        ∧ tag_state d d2 (if is_steps tags then VStr "yes" else st) w su li
            (s + (if is_steps tags then 100 else 0)).
Proof.
  intros H. unfold check_stairs. fold (is_steps tags).
  destruct (is_steps tags).
  - apply (tag_state_stairs _ _ _ _ _ _ _ (VStr "yes")) in H.
    apply (tag_state_score _ _ _ _ _ _ _ 100 H).
  - exists d1. split; [done|]. eapply tag_state_Qeq; [|exact H]. ring.
Qed.

Lemma check_width_state tags d d1 st w su li s :
  tag_state d d1 st w su li s →
  match tags_width tags with
  | Some x =>
      ∃ d2, check_width tags d1 = Some d2
            ∧ tag_state d d2 st
                (match assoc_get tags "width" with
                 | Some _ => VNum x
                 | None => w
                 end) su li s
  | None => check_width tags d1 = None
  end.
Proof.
  intros H. unfold check_width, tags_width.
  destruct (assoc_get tags "width") as [[| ? | ? | str | ? | ?]|]; try done.
  - eexists. split; [done|]. exact (tag_state_width _ _ _ _ _ _ _ _ H).
  - by exists d1.
Qed.

Lemma check_surface_state tags d d1 st w su li s :
  tag_state d d1 st w su li s →
  ∃ d2, check_surface tags d1 = Some d2
        ∧ tag_state d d2 st w (default su (assoc_get tags "surface")) li
            (s + (if bad_surface tags then 50 else 0)).
Proof.
  intros H. unfold check_surface, bad_surface.
  destruct (assoc_get tags "surface") as [v|]; cbn [default from_option id].
  - apply (tag_state_surface _ _ _ _ _ _ _ v) in H.
    destruct (existsb (is_str (Some v)) problematic_surfaces).
    + apply (tag_state_score _ _ _ _ _ _ _ 50 H).
    + eexists. split; [done|]. eapply tag_state_Qeq; [|exact H]. ring.
  - exists d1. split; [done|]. eapply tag_state_Qeq; [|exact H]. ring.
Qed.

Lemma check_lit_state tags d d1 st w su li s :
  tag_state d d1 st w su li s →
  ∃ d2, check_lit tags d1 = Some d2
        ∧ tag_state d d2 st w su (default li (assoc_get tags "lit"))
            (s + (if unlit tags then 20 else 0)).
Proof.
  intros H. unfold check_lit, unlit.
  destruct (assoc_get tags "lit") as [v|]; cbn [default from_option id].
  - apply (tag_state_lit _ _ _ _ _ _ _ v) in H.
    destruct (is_str (Some v) "no").
    + apply (tag_state_score _ _ _ _ _ _ _ 20 H).
    + eexists. split; [done|]. eapply tag_state_Qeq; [|exact H]. ring.
  - exists d1. split; [done|]. eapply tag_state_Qeq; [|exact H].
    cbn [is_str]. ring.
Qed.

Lemma enrich_tags_spec d :
  match tags_of d with
  | None => enrich_tags d = None
  | Some tags =>
      match tags_width tags with
      | None => enrich_tags d = None
      | Some w =>
          ∃ d1, enrich_tags d = Some d1
                ∧ tag_state d d1
                    (VStr (if is_steps tags then "yes" else "no")) (VNum w)
                    (default (VStr "unknown") (assoc_get tags "surface"))
                    (default (VStr "unknown") (assoc_get tags "lit"))
                    (tags_score tags)
      end
  end.
Proof.
  unfold enrich_tags, tags_of.
  pose proof (tag_state_init d) as H0.
  set (b := <["obstacle_score" := VNum 0]> _) in *.
  assert (b !! "tags" = d !! "tags") as ->.
  { destruct H0 as (_ & _ & _ & _ & _ & Hf). apply Hf, not_enriched_key. done. }
  clearbody b.
  destruct (d !! "tags") as [[| ? | ? | ? | ? |tags]|]; try done.
  - destruct (check_stairs_state tags _ _ _ _ _ _ _ H0) as (d2 & -> & H2).
    cbn [mbind option_bind].
    pose proof (check_width_state tags _ _ _ _ _ _ _ H2) as Hw.
    destruct (tags_width tags) as [w|] eqn:Ew; [|by rewrite Hw].
    destruct Hw as (d3 & -> & H3). cbn [mbind option_bind].
    destruct (check_surface_state tags _ _ _ _ _ _ _ H3) as (d4 & -> & H4).
    cbn [mbind option_bind].
    destruct (check_lit_state tags _ _ _ _ _ _ _ H4) as (d5 & -> & H5).
    exists d5. split; [done|].
    replace (VStr (if is_steps tags then "yes" else "no"))
      with (if is_steps tags then VStr "yes" else VStr "no")
      by by destruct (is_steps tags).
    replace (VNum w)
      with (match assoc_get tags "width" with
            | Some _ => VNum w
            | None => VNum 2
            end).
    2:{ unfold tags_width in Ew. destruct (assoc_get tags "width"); congruence. }
    eapply tag_state_Qeq; [|exact H5]. unfold tags_score. ring.
  - exists b. split; [done|]. exact H0.
Qed.

Lemma enrich_grade_spec d d1 st w su li s :
  tag_state d d1 st w su li s →
  if grade_ok d
  then ∃ d', enrich_grade d1 = Some d'
             ∧ tag_state d d' st w su li (s + grade_penalty_of d)
  else enrich_grade d1 = None.
Proof.
  intros H. unfold grade_ok, enrich_grade, grade_penalty_of.
  assert (d1 !! "grade" = d !! "grade") as ->.
  { destruct H as (_ & _ & _ & _ & _ & Hf). apply Hf, not_enriched_key. done. }
  destruct (d !! "grade") as [[| ? | g | ? | ? | ?]|]; try done.
  - exists d1. split; [done|]. eapply tag_state_Qeq; [|exact H]. ring.
  - cbn [as_num mbind option_bind]. unfold spec_grade_penalty.
    destruct (Qlt_bool (8 # 100) (Qabs g)) eqn:E.
    + rewrite py_int_floor
        by (apply Qmult_le_0_compat; [apply Qabs_nonneg | done]).
      rewrite (py_min_inject 100).
      apply (tag_state_score _ _ _ _ _ _ _ _ H).
    + exists d1. split; [done|]. eapply tag_state_Qeq; [|exact H]. ring.
  - exists d1. split; [done|]. eapply tag_state_Qeq; [|exact H]. ring.
Qed.

Lemma enrich_edge_spec d :
  match tags_of d with
  | None => enrich_edge d = None
  | Some tags =>
      match tags_width tags with
      | None => enrich_edge d = None
      | Some w =>
          if grade_ok d
          then ∃ d', enrich_edge d = Some d'
                     ∧ tag_state d d'
                         (VStr (if is_steps tags then "yes" else "no")) (VNum w)
                         (default (VStr "unknown") (assoc_get tags "surface"))
                         (default (VStr "unknown") (assoc_get tags "lit"))
                         (tags_score tags + grade_penalty_of d)
          else enrich_edge d = None
      end
  end.
Proof.
  unfold enrich_edge. pose proof (enrich_tags_spec d) as H.
  destruct (tags_of d) as [tags|]; [|by rewrite H].
  destruct (tags_width tags) as [w|]; [|by rewrite H].
  destruct H as (d1 & -> & H1). cbn [mbind option_bind].
  exact (enrich_grade_spec _ _ _ _ _ _ _ H1).
Qed.

Lemma enrich_edge_inv d d' :
  enrich_edge d = Some d' →
  ∃ tags w,
    tags_of d = Some tags ∧ tags_width tags = Some w
    ∧ tag_state d d'
        (VStr (if is_steps tags then "yes" else "no")) (VNum w)
        (default (VStr "unknown") (assoc_get tags "surface"))
        (default (VStr "unknown") (assoc_get tags "lit"))
        (tags_score tags + grade_penalty_of d).
Proof.
  intros H. pose proof (enrich_edge_spec d) as Hs.
  destruct (tags_of d) as [tags|]; [|congruence].
  destruct (tags_width tags) as [w|] eqn:Ew; [|congruence].
  destruct (grade_ok d); [|congruence].
  destruct Hs as (d2 & Hd2 & Hst). rewrite H in Hd2.
  apply (inj Some) in Hd2 as <-. exists tags, w. split; [done|]. split; [done|]. exact Hst.
Qed.

Lemma enrich_edge_well_tagged d :
  well_tagged d = true → is_Some (enrich_edge d).
Proof.
  unfold well_tagged. pose proof (enrich_edge_spec d) as Hs.
  destruct (tags_of d) as [tags|]; [|discriminate].
  destruct (tags_width tags) as [w|]; [|discriminate].
  destruct (grade_ok d); [|discriminate].
  intros _. destruct Hs as (d' & -> & _). by eexists.
Qed.




Lemma create_graph_inv
    (graph_from_bbox : Q → Q → Q → Q → string → option graph)
    (add_elevations_and_grades : graph → option graph)
    (north south east west : Q) (network_type : string) (g' : graph) :
  create_graph graph_from_bbox add_elevations_and_grades
    north south east west network_type = Some g' →
  ∃ g0, graph_from_bbox north south east west network_type = Some g0
        ∧ nodes g' = nodes (graded add_elevations_and_grades g0)
        ∧ edges_rel (λ d d', enrich_edge d = Some d')
            (edges (graded add_elevations_and_grades g0)) (edges g').
Proof.
  unfold create_graph. intros H.
  apply bind_Some in H as (g0 & Hg0 & H).
  fold (graded add_elevations_and_grades g0) in H.
  apply bind_Some in H as (es & Hes & H).
  apply (inj Some) in H as <-. exists g0. split; [done|]. split; [done|].
  by apply for_each_edge_map.
Qed.

(** X1: after the enrichment of an edge, [stairs] is ['yes'] exactly when
    the tags say [highway = steps] or [stairs = yes] and ['no'] otherwise,
    [width] is the parsed width tag (2.0 without one), and [surface] and
    [lit] are the values of their tags (['unknown'] without one); what
    these attributes held before is overwritten. *)
Theorem enrich_edge_attributes (d d' : attrs) :
  enrich_edge d = Some d' →
  ∃ tags w,
    tags_of d = Some tags ∧ tags_width tags = Some w
    ∧ d' !! "stairs" = Some (VStr (if is_steps tags then "yes" else "no"))
    ∧ d' !! "width" = Some (VNum w)
    ∧ d' !! "surface" = Some (default (VStr "unknown") (assoc_get tags "surface"))
    ∧ d' !! "lit" = Some (default (VStr "unknown") (assoc_get tags "lit")).
Proof.
  intros H.
  apply enrich_edge_inv in H
    as (tags & w & Ht & Hw & H1 & H2 & H3 & H4 & _).
  by exists tags, w.
Qed.

Lemma enrich_edge_attributes_witness :
  ∃ d' tags w,
    enrich_edge raw_steps_edge = Some d'
    ∧ tags_of raw_steps_edge = Some tags ∧ tags_width tags = Some w
    ∧ d' !! "stairs" = Some (VStr (if is_steps tags then "yes" else "no"))
    ∧ d' !! "width" = Some (VNum w)
    ∧ d' !! "surface" = Some (default (VStr "unknown") (assoc_get tags "surface"))
    ∧ d' !! "lit" = Some (default (VStr "unknown") (assoc_get tags "lit")).
Proof.
  assert (succeeds (enrich_edge raw_steps_edge) = true) as Hrun
    by (vm_compute; reflexivity).
  destruct (enrich_edge raw_steps_edge) as [d'|] eqn:E;
    [clear Hrun|discriminate Hrun].
  destruct (enrich_edge_attributes raw_steps_edge d' E) as (tags & w & H).
  exists d', tags, w. split; [reflexivity | exact H].
Defined.



Lemma enrich_edge_grade_ok d d' : enrich_edge d = Some d' → grade_ok d = true.
Proof.
  intros H. pose proof (enrich_edge_spec d) as Hs.
  destruct (tags_of d) as [tags|]; [|congruence].
  destruct (tags_width tags) as [w|]; [|congruence].
  destruct (grade_ok d); [done|congruence].
Qed.

Lemma enrich_edge_bad_tags d :
  tags_of d ≫= tags_width = None → enrich_edge d = None.
Proof.
  intros H. pose proof (enrich_edge_spec d) as Hs.
  destruct (tags_of d) as [tags|]; [|done]. cbn [mbind option_bind] in H.
  by rewrite H in Hs.
Qed.

Lemma enrich_edge_frame d d' :
  enrich_edge d = Some d' → frame_on enriched_keys d d'.
Proof.
  intros H. apply enrich_edge_inv in H as (tags & w & _ & _ & H). apply H.
Qed.

Lemma grade_not_enriched : "grade"%string ∉ enriched_keys.
Proof. by apply not_enriched_key. Qed.

Lemma tags_not_enriched : "tags"%string ∉ enriched_keys.
Proof. by apply not_enriched_key. Qed.

Lemma length_not_enriched : "length"%string ∉ enriched_keys.
Proof. by apply not_enriched_key. Qed.

Lemma init_edge_none_grade p d :
  d !! "grade" = Some VNone → init_edge p d = None.
Proof.
  intros Hg. destruct (init_edge p d) as [d'|] eqn:H; [exfalso|done].
  unfold init_edge in H.
  set (len := default (VNum 0) (d !! "length")) in H.
  set (d0 := <["weight" := len]> d) in H.
  assert (d0 !! "grade" = Some VNone) as G0
    by (unfold d0; by rewrite lookup_insert_ne).
  destruct (if avoid_stairs p && _ then _ else _) as [d1|] eqn:E1;
    simpl in H; [|done].
  assert (d1 !! "grade" = Some VNone) as G1.
  { destruct (avoid_stairs p && _); [|congruence].
    destruct (as_num len); simpl in E1; [|done].
    apply add_num_eq in E1 as (n & _ & ->). by rewrite lookup_insert_ne. }
  clear E1.
  destruct (get_num d1 "width" 2) as [w|]; simpl in H; [|done].
  destruct (if Qlt_bool w _ then _ else _) as [d2|] eqn:E2;
    simpl in H; [|done].
  assert (d2 !! "grade" = Some VNone) as G2.
  { destruct (Qlt_bool w _); [|congruence].
    destruct (py_div _ _) as [wp|]; simpl in E2; [|done].
    destruct (as_num len); simpl in E2; [|done].
    apply add_num_eq in E2 as (n & _ & ->). by rewrite lookup_insert_ne. }
  unfold get_num in H at 1. by rewrite G2 in H.
Qed.

Lemma calculate_obstacle_weights_edge_fail
    (nearest_edges : graph → Q → Q → option (list (edge_key * Q)))
    (g : graph) (e : edge_key) (d : attrs) obstacles prefs :
  edges g !! e = Some d →
  init_edge (default no_preferences prefs) d = None →
  calculate_obstacle_weights nearest_edges g obstacles prefs = None.
Proof.
  intros He Hd. unfold calculate_obstacle_weights.
  destruct (init_weights _ g) as [g0|] eqn:Hi; [exfalso|done].
  apply init_weights_rel in Hi as [_ Hrel]. specialize (Hrel e).
  rewrite He in Hrel. inversion Hrel; congruence.
Qed.

Lemma one_edge_graph_lookup d e d' :
  edges (one_edge_graph d) !! e = Some d' → e = (1, 2, 0) ∧ d' = d.
Proof.
  intros H. apply elem_of_list_to_map_2 in H.
  apply elem_of_cons in H as [[= -> ->]|H]; [done | by apply elem_of_nil in H].
Qed.

(** X3: graph creation adds and removes no edge, and on every edge it
    only writes [stairs], [width], [surface], [lit] and [obstacle_score]:
    every other attribute keeps the value it had after the elevation
    step. *)
Theorem create_graph_frame
    (graph_from_bbox : Q → Q → Q → Q → string → option graph)
    (add_elevations_and_grades : graph → option graph)
    (north south east west : Q) (network_type : string) (g' : graph) :
  create_graph graph_from_bbox add_elevations_and_grades
    north south east west network_type = Some g' →
  ∃ g0, graph_from_bbox north south east west network_type = Some g0
        ∧ dom (edges g') = dom (edges (graded add_elevations_and_grades g0))
        ∧ ∀ e d d',
            edges (graded add_elevations_and_grades g0) !! e = Some d →
            edges g' !! e = Some d' →
            ∀ k, k ∉ enriched_keys → d' !! k = d !! k.
Proof.
  intros H. apply create_graph_inv in H as (g0 & Hg0 & Hn & Hrel).
  exists g0. split; [done|].
  split; [by eapply edges_rel_dom|].
  intros e d d' Hd Hd'.
  apply (enrich_edge_frame d d').
  exact (edges_rel_lookup _ _ _ e d d' Hrel Hd Hd').
Qed.

Lemma create_graph_frame_witness :
  ∃ g', create_graph (bbox_of raw_steps_edge) elevation_kept 0 0 0 0 "walk"
        = Some g'
        ∧ ∀ d', edges g' !! (1, 2, 0) = Some d' →
                d' !! "length" = Some (VNum 10).
Proof.
  assert (succeeds (create_graph (bbox_of raw_steps_edge) elevation_kept
                      0 0 0 0 "walk") = true) as Hrun
    by (vm_compute; reflexivity).
  destruct (create_graph (bbox_of raw_steps_edge) elevation_kept 0 0 0 0 "walk")
    as [g'|] eqn:E; [clear Hrun|discriminate Hrun].
  exists g'. split; [reflexivity|].
  destruct (create_graph_frame _ _ _ _ _ _ _ _ E) as (g0 & Hg0 & _ & Hf).
  injection Hg0 as <-. intros d' Hd'.
  assert (edges (graded elevation_kept (one_edge_graph raw_steps_edge))
            !! (1, 2, 0) = Some raw_steps_edge) as Hd by apply lookup_insert_eq.
  etrans; [|exact (eq_refl : raw_steps_edge !! "length" = Some (VNum 10))].
  exact (Hf (1, 2, 0) raw_steps_edge d' Hd Hd' "length" length_not_enriched).
Defined.

(** X4: graph creation returns a graph whenever the map source does and
    every edge has tags that are a dict (or no tags), a width tag that is
    a string (or none) and a grade that is a number, [None] or absent;
    a width tag that cannot be parsed is no obstacle to that. *)
Theorem create_graph_total
    (graph_from_bbox : Q → Q → Q → Q → string → option graph)
    (add_elevations_and_grades : graph → option graph)
    (north south east west : Q) (network_type : string) (g0 : graph) :
  graph_from_bbox north south east west network_type = Some g0 →
  (∀ e d, edges (graded add_elevations_and_grades g0) !! e = Some d →
          well_tagged d = true) →
  is_Some (create_graph graph_from_bbox add_elevations_and_grades
             north south east west network_type).
Proof.
  intros Hg0 Hall. unfold create_graph. rewrite Hg0. cbn [mbind option_bind].
  fold (graded add_elevations_and_grades g0).
  destruct (for_each_edge_map_total enrich_edge
              (edges (graded add_elevations_and_grades g0))) as [es ->].
  - intros e d Hd. apply enrich_edge_well_tagged. by eapply Hall.
  - by eexists.
Qed.

Lemma create_graph_total_witness :
  is_Some (create_graph (bbox_of raw_steps_edge) no_elevation 0 0 0 0 "walk").
Proof.
  apply (create_graph_total (bbox_of raw_steps_edge) no_elevation 0 0 0 0 "walk"
           (one_edge_graph raw_steps_edge)).
  - reflexivity.
  - intros e d H. unfold graded, no_elevation, zero_grades in H. simpl in H.
    apply lookup_fmap_Some in H as (d0 & <- & H).
    apply one_edge_graph_lookup in H as [_ ->]. vm_compute. reflexivity.
Defined.

(** X5: one edge whose tags are not a dict, or whose width tag is not a
    string, makes the whole graph creation fail: the handler of the width
    parser only catches [ValueError], so the default width is not used. *)
Theorem create_graph_bad_tags_fail
    (graph_from_bbox : Q → Q → Q → Q → string → option graph)
    (add_elevations_and_grades : graph → option graph)
    (north south east west : Q) (network_type : string)
    (g0 : graph) (e : edge_key) (d : attrs) :
  graph_from_bbox north south east west network_type = Some g0 →
  edges (graded add_elevations_and_grades g0) !! e = Some d →
  tags_of d ≫= tags_width = None →
  create_graph graph_from_bbox add_elevations_and_grades
    north south east west network_type = None.
Proof.
  intros Hg0 Hd Hbad.
  destruct (create_graph _ _ _ _ _ _ _) as [g'|] eqn:H; [exfalso|done].
  apply create_graph_inv in H as (g0' & Hg0' & _ & Hrel).
  rewrite Hg0 in Hg0'. injection Hg0' as <-.
  specialize (Hrel e). rewrite Hd in Hrel.
  apply enrich_edge_bad_tags in Hbad. inversion Hrel; congruence.
Qed.

Lemma create_graph_bad_tags_fail_witness :
  create_graph (bbox_of numeric_width_edge) elevation_kept 0 0 0 0 "walk" = None.
Proof.
  apply (create_graph_bad_tags_fail (bbox_of numeric_width_edge) elevation_kept
           0 0 0 0 "walk" (one_edge_graph numeric_width_edge) (1, 2, 0)
           numeric_width_edge); reflexivity.
Defined.

(** X6: when the elevation step fails, the creation still goes on, every
    edge of the result has grade 0, and its obstacle score is the score
    of its tags alone. *)
Theorem elevation_failure_zero_grade
    (graph_from_bbox : Q → Q → Q → Q → string → option graph)
    (add_elevations_and_grades : graph → option graph)
    (north south east west : Q) (network_type : string) (g0 g' : graph) :
  graph_from_bbox north south east west network_type = Some g0 →
  add_elevations_and_grades g0 = None →
  create_graph graph_from_bbox add_elevations_and_grades
    north south east west network_type = Some g' →
  ∀ e d', edges g' !! e = Some d' →
    d' !! "grade" = Some (VNum 0)
    ∧ ∃ d tags s,
        edges g0 !! e = Some d
        ∧ tags_of d = Some tags
        ∧ d' !! "obstacle_score" = Some (VNum s)
        ∧ (s == tags_score tags)%Q.
Proof.
  intros Hg0 Hel H. apply create_graph_inv in H as (g0' & Hg0' & Hn & Hrel).
  rewrite Hg0 in Hg0'. injection Hg0' as <-.
  unfold graded in Hrel. rewrite Hel in Hrel.
  intros e d' Hd'.
  destruct (edges_rel_lookup_r _ _ _ _ _ Hrel Hd') as (d1 & Hd1 & He).
  cbn [zero_grades edges] in Hd1.
  apply lookup_fmap_Some in Hd1 as (d & <- & Hd).
  apply enrich_edge_inv in He
    as (tags & w & Ht & _ & _ & _ & _ & _ & (s & Hs & Heq) & Hf).
  split.
  - rewrite (Hf "grade" grade_not_enriched). apply lookup_insert_eq.
  - exists d, tags, s. split; [done|]. split; [|split; [done|]].
    + unfold tags_of in *. by rewrite lookup_insert_ne in Ht.
    + rewrite Heq. unfold grade_penalty_of. rewrite lookup_insert_eq.
      vm_compute (spec_grade_penalty 0). ring.
Qed.

Lemma elevation_failure_zero_grade_witness :
  ∃ g', create_graph (bbox_of raw_steps_edge) no_elevation 0 0 0 0 "walk"
        = Some g'
        ∧ ∀ e d', edges g' !! e = Some d' →
            d' !! "grade" = Some (VNum 0)
            ∧ ∃ d tags s,
                edges (one_edge_graph raw_steps_edge) !! e = Some d
                ∧ tags_of d = Some tags
                ∧ d' !! "obstacle_score" = Some (VNum s)
                ∧ (s == tags_score tags)%Q.
Proof.
  assert (succeeds (create_graph (bbox_of raw_steps_edge) no_elevation
                      0 0 0 0 "walk") = true) as Hrun
    by (vm_compute; reflexivity).
  destruct (create_graph (bbox_of raw_steps_edge) no_elevation 0 0 0 0 "walk")
    as [g'|] eqn:E; [clear Hrun|discriminate Hrun].
  exists g'. split; [reflexivity|].
  exact (elevation_failure_zero_grade (bbox_of raw_steps_edge)
           no_elevation 0 0 0 0 "walk" (one_edge_graph raw_steps_edge)
           g' eq_refl eq_refl E).
Defined.

(** X7: on a graph that graph creation returned, whose edges have a
    numeric length and a numeric (or absent) grade, the weight calculator
    returns for every obstacle list and all preferences with non-zero
    [minimumWidth] and [maxSlope]: the enrichment always leaves a numeric
    width. *)
Theorem enriched_graph_weights_total
    (graph_from_bbox : Q → Q → Q → Q → string → option graph)
    (add_elevations_and_grades : graph → option graph)
    (nearest_edges : graph → Q → Q → option (list (edge_key * Q)))
    (north south east west : Q) (network_type : string) (g' : graph)
    (obstacles : list obstacle) (prefs : option preferences) :
  create_graph graph_from_bbox add_elevations_and_grades
    north south east west network_type = Some g' →
  (∀ e d, edges g' !! e = Some d →
          is_Some (get_num d "length" 0) ∧ is_Some (get_num d "grade" 0)) →
  ¬ (minimum_width (default no_preferences prefs) == 0)%Q →
  ¬ (max_slope (default no_preferences prefs) == 0)%Q →
  is_Some (calculate_obstacle_weights nearest_edges g' obstacles prefs).
Proof.
  intros H Hnum Hw Hs. apply create_graph_inv in H as (g0 & _ & _ & Hrel).
  unfold calculate_obstacle_weights.
  destruct (init_weights_total (default no_preferences prefs) g') as [g1 ->];
    [|by eexists].
  intros e d' Hd'. apply init_edge_total; [|done..].
  destruct (Hnum e d' Hd') as [Hl Hg]. split; [done|]. split; [|done].
  destruct (edges_rel_lookup_r _ _ _ _ _ Hrel Hd') as (d & _ & He).
  apply enrich_edge_inv in He as (tags & w & _ & _ & _ & Hwd & _).
  exists w. unfold get_num. by rewrite Hwd.
Qed.

Lemma enriched_graph_weights_total_witness :
  ∃ g', create_graph (bbox_of raw_steps_edge) elevation_kept 0 0 0 0 "walk"
        = Some g'
        ∧ is_Some (calculate_obstacle_weights lookup_at_50 g'
                     [stairs_obstacle] None).
Proof.
  assert (succeeds (create_graph (bbox_of raw_steps_edge) elevation_kept
                      0 0 0 0 "walk") = true) as Hrun
    by (vm_compute; reflexivity).
  destruct (create_graph (bbox_of raw_steps_edge) elevation_kept 0 0 0 0 "walk")
    as [g'|] eqn:E; [clear Hrun|discriminate Hrun].
  exists g'. split; [reflexivity|].
  apply (enriched_graph_weights_total (bbox_of raw_steps_edge) elevation_kept
           lookup_at_50 0 0 0 0 "walk" g' [stairs_obstacle] None E).
  - intros e d Hd.
    destruct (create_graph_inv _ _ _ _ _ _ _ _ E) as (g0 & Hg0 & _ & Hrel).
    injection Hg0 as <-.
    destruct (edges_rel_lookup_r _ _ _ _ _ Hrel Hd) as (d0 & Hd0 & He).
    apply one_edge_graph_lookup in Hd0 as [_ ->].
    pose proof (enrich_edge_frame _ _ He) as Hf.
    assert (d !! "length" = Some (VNum 10)) as Hl.
    { etrans; [apply Hf, length_not_enriched | reflexivity]. }
    assert (d !! "grade" = Some (VNum (12 # 100))) as Hg.
    { etrans; [apply Hf, grade_not_enriched | reflexivity]. }
    unfold get_num. rewrite Hl, Hg. split; by eexists.
  - vm_compute. discriminate.
  - vm_compute. discriminate.
Defined.

(** X8: an edge whose grade is [None] passes the enrichment (the grade
    rule skips it and the grade stays [None]), but the weight calculator
    fails on every graph that holds the enriched edge: it takes the
    absolute value of the grade without that check. *)
Theorem none_grade_breaks_weights (d : attrs) :
  d !! "grade" = Some VNone →
  is_Some (tags_of d ≫= tags_width) →
  ∃ d', enrich_edge d = Some d'
        ∧ d' !! "grade" = Some VNone
        ∧ ∀ (nearest_edges : graph → Q → Q → option (list (edge_key * Q)))
            (g : graph) (e : edge_key) (obstacles : list obstacle)
            (prefs : option preferences),
            edges g !! e = Some d' →
            calculate_obstacle_weights nearest_edges g obstacles prefs = None.
Proof.
  intros Hg Ht.
  destruct (enrich_edge_well_tagged d) as [d' Hd'].
  { unfold well_tagged, grade_ok. rewrite Hg.
    destruct (tags_of d) as [tags|]; [|by destruct Ht].
    cbn [mbind option_bind] in Ht. by destruct Ht as [w ->]. }
  exists d'. split; [done|].
  assert (d' !! "grade" = Some VNone) as Hg'.
  { by rewrite (enrich_edge_frame _ _ Hd' "grade" grade_not_enriched). }
  split; [done|]. intros ne g e obstacles prefs He.
  eapply calculate_obstacle_weights_edge_fail; [exact He|].
  by apply init_edge_none_grade.
Qed.

Lemma none_grade_breaks_weights_witness :
  ∃ d', enrich_edge none_grade_edge = Some d'
        ∧ calculate_obstacle_weights no_lookup (one_edge_graph d') [] None
          = None.
Proof.
  destruct (none_grade_breaks_weights none_grade_edge) as (d' & Hd' & _ & H).
  - reflexivity.
  - by eexists.
  - exists d'. split; [exact Hd'|].
    apply (H no_lookup (one_edge_graph d') (1, 2, 0) [] None).
    unfold one_edge_graph. cbn [edges list_to_map foldr]. cbn [curry fst snd].
    apply lookup_insert_eq.
Defined.

(** X9: enriching an edge that is already enriched succeeds and changes
    nothing: the score is reset before the tags are read, so scores do not
    pile up. *)
Theorem enrich_edge_idempotent (d d1 : attrs) :
  enrich_edge d = Some d1 →
  ∃ d2 s1 s2,
    enrich_edge d1 = Some d2
    ∧ (∀ k, k ≠ "obstacle_score"%string → d2 !! k = d1 !! k)
    ∧ d1 !! "obstacle_score" = Some (VNum s1)
    ∧ d2 !! "obstacle_score" = Some (VNum s2)
    ∧ (s1 == s2)%Q.
Proof.
  intros H. pose proof (enrich_edge_grade_ok _ _ H) as Hok.
  apply enrich_edge_inv in H
    as (tags & w & Ht & Hw & H1 & H2 & H3 & H4 & (s1 & Hs1 & Heq1) & Hf).
  assert (tags_of d1 = Some tags) as Ht1.
  { unfold tags_of in *. by rewrite (Hf "tags" tags_not_enriched). }
  assert (d1 !! "grade" = d !! "grade") as Hg
    by apply (Hf "grade" grade_not_enriched).
  pose proof (enrich_edge_spec d1) as Hs.
  rewrite Ht1, Hw in Hs. unfold grade_ok in Hs, Hok. rewrite Hg, Hok in Hs.
  destruct Hs as (d2 & Hd2 & G1 & G2 & G3 & G4 & (s2 & Hs2 & Heq2) & Hf2).
  exists d2, s1, s2. split; [done|]. split; [|split; [done|split; [done|]]].
  - intros k Hk.
    destruct (decide (k = "stairs"%string)) as [->|]; [congruence|].
    destruct (decide (k = "width"%string)) as [->|]; [congruence|].
    destruct (decide (k = "surface"%string)) as [->|]; [congruence|].
    destruct (decide (k = "lit"%string)) as [->|]; [congruence|].
    apply Hf2. by apply not_enriched_key.
  - rewrite Heq1, Heq2. unfold grade_penalty_of. by rewrite Hg.
Qed.

Lemma enrich_edge_idempotent_witness :
  ∃ d1 d2 s1 s2,
    enrich_edge raw_steps_edge = Some d1
    ∧ enrich_edge d1 = Some d2
    ∧ d1 !! "obstacle_score" = Some (VNum s1)
    ∧ d2 !! "obstacle_score" = Some (VNum s2)
    ∧ (s1 == s2)%Q.
Proof.
  assert (succeeds (enrich_edge raw_steps_edge) = true) as Hrun
    by (vm_compute; reflexivity).
  destruct (enrich_edge raw_steps_edge) as [d1|] eqn:E;
    [clear Hrun|discriminate Hrun].
  destruct (enrich_edge_idempotent raw_steps_edge d1 E)
    as (d2 & s1 & s2 & H2 & _ & H3 & H4 & H5).
  exists d1, d2, s1, s2. split; [reflexivity|]. exact (conj H2 (conj H3 (conj H4 H5))).
Defined.

(** ** Weight calculator: scores and weights of the result *)

Section ObstacleLoopStep.
Variable P : attrs → attrs → Prop.
Variable ok : Q → Prop.
Hypothesis P_refl : ∀ d, P d d.
Hypothesis P_trans : ∀ a b c, P a b → P b c → P a c.
Hypothesis P_half :
  ∀ pen d d1, ok pen → add_num "weight" pen d = Some d1 →
    get_num d1 "obstacle_score" 0 = None → P d d1.
Hypothesis P_full :
  ∀ pen d d1 s, ok pen → add_num "weight" pen d = Some d1 →
    get_num d1 "obstacle_score" 0 = Some s →
    P d (<["obstacle_score" := VNum (s + pen)%Q]> d1).

Lemma add_penalty_step e pen es :
  ok pen → edges_rel P es (add_penalty e pen es).1.
Proof.
  intros Hok. unfold add_penalty.
  destruct (es !! e) as [d|] eqn:He; simpl; [|by apply edges_rel_refl].
  destruct (add_num "weight" pen d) as [d1|] eqn:Hw; simpl;
    [|by apply edges_rel_refl].
  destruct (get_num d1 "obstacle_score" 0) as [s|] eqn:Hs; simpl;
    (eapply edges_rel_insert; [exact P_refl | exact He |]); eauto.
Qed.

Lemma apply_penalties_step w l :
  (∀ dist, (dist <= 100)%Q → ok (w * distance_factor dist)%Q) →
  ∀ es, edges_rel P es (apply_penalties w l es).
Proof.
  intros Hok. induction l as [|[e dist] r IH]; intros es; simpl.
  - by apply edges_rel_refl.
  - destruct (Qle_bool dist MAX_OBSTACLE_INFLUENCE) eqn:Hd; [|apply IH].
    apply Qle_bool_iff in Hd.
    pose proof (add_penalty_step e (w * distance_factor dist)%Q es
                  (Hok _ Hd)) as Hstep.
    destruct (add_penalty e _ es) as [es' [|]]; simpl in Hstep; [|done].
    eapply edges_rel_trans; [exact P_trans | exact Hstep | apply IH].
Qed.

Variable nearest_edges : graph → Q → Q → option (list (edge_key * Q)).

Lemma apply_obstacle_step g ob :
  ok_obstacle ok ob →
  edges_rel P (edges g) (edges (apply_obstacle nearest_edges g ob)).
Proof.
  intros Hok. unfold apply_obstacle.
  destruct (unset_location ob); [by apply edges_rel_refl|].
  destruct (nearest_edges _ _ _) as [l|]; simpl; [|by apply edges_rel_refl].
  by apply apply_penalties_step.
Qed.

Lemma obstacles_step obstacles :
  Forall (ok_obstacle ok) obstacles →
  ∀ g, edges_rel P (edges g)
         (edges (foldl (apply_obstacle nearest_edges) g obstacles)).
Proof.
  induction 1 as [|ob r Hob _ IH]; intros g; simpl.
  - by apply edges_rel_refl.
  - eapply edges_rel_trans; [exact P_trans | by apply apply_obstacle_step | apply IH].
Qed.
End ObstacleLoopStep.

Lemma add_num_weight_score pen d d1 :
  add_num "weight" pen d = Some d1 →
  get_num d1 "obstacle_score" 0 = get_num d "obstacle_score" 0.
Proof.
  intros H. apply add_num_eq in H as (n & _ & ->). by apply get_num_insert_ne.
Qed.

Lemma score_grows_refl d : score_grows d d.
Proof. intros s Hs. exists s. split; [done | apply Qle_refl]. Qed.

Lemma score_grows_trans a b c :
  score_grows a b → score_grows b c → score_grows a c.
Proof.
  intros Hab Hbc s Hs. destruct (Hab s Hs) as (s1 & H1 & Hle1).
  destruct (Hbc s1 H1) as (s2 & H2 & Hle2).
  exists s2. split; [done | by eapply Qle_trans].
Qed.

Lemma score_grows_half pen d d1 :
  (0 <= pen)%Q → add_num "weight" pen d = Some d1 →
  get_num d1 "obstacle_score" 0 = None → score_grows d d1.
Proof.
  intros _ H _ s Hs. rewrite <- (add_num_weight_score _ _ _ H) in Hs.
  exists s. split; [done | apply Qle_refl].
Qed.

Lemma score_grows_full pen d d1 s :
  (0 <= pen)%Q → add_num "weight" pen d = Some d1 →
  get_num d1 "obstacle_score" 0 = Some s →
  score_grows d (<["obstacle_score" := VNum (s + pen)%Q]> d1).
Proof.
  intros Hpen H Hs s0 Hs0. rewrite <- (add_num_weight_score _ _ _ H) in Hs0.
  assert (s0 = s) as -> by congruence.
  exists (s + pen)%Q. rewrite get_num_insert_eq. split; [done | lra].
Qed.





Lemma keeps_original_weight pen d d1 :
  True → add_num "weight" pen d = Some d1 → keeps_original d d1.
Proof.
  intros _ H. apply add_num_eq in H as (n & _ & ->).
  unfold keeps_original. by rewrite lookup_insert_ne.
Qed.

Lemma keeps_original_score pen d1 s :
  True → keeps_original d1 (<["obstacle_score" := VNum (s + pen)%Q]> d1).
Proof. intros _. unfold keeps_original. by rewrite lookup_insert_ne. Qed.

(** What the per-edge loop leaves: the dict of the edge with only its
    weight rewritten, plus the snapshot of its obstacle score. *)
Lemma init_edge_shape p d d' :
  init_edge p d = Some d' →
  ∃ d3, d' = <["original_obstacle_score" :=
                 default (VNum 0) (d !! "obstacle_score")]> d3
        ∧ ∀ k, k ≠ "weight"%string → d3 !! k = d !! k.
Proof.
  unfold init_edge. intros H.
  set (len := default (VNum 0) (d !! "length")) in H.
  set (d0 := <["weight" := len]> d) in H.
  assert (∀ k, k ≠ "weight"%string → d0 !! k = d !! k) as F0
    by (intros k Hk; unfold d0; by rewrite lookup_insert_ne).
  assert (∀ (c : bool) (m : option Q) (f : Q → Q) (a b : attrs),
            (if c then x ← m; add_num "weight" (f x) a else Some a) = Some b →
            ∀ k, k ≠ "weight"%string → b !! k = a !! k) as Hstep.
  { intros c m f a b E k Hk. destruct c; [|congruence].
    destruct m as [x|]; simpl in E; [|done].
    apply add_num_eq in E as (n & _ & ->). by rewrite lookup_insert_ne. }
  destruct (if avoid_stairs p && _ then _ else _) as [d1|] eqn:E1;
    simpl in H; [|done].
  pose proof (Hstep _ _ (λ l, l * 100)%Q _ _ E1) as F1. clear E1.
  destruct (get_num d1 "width" 2) as [w|]; simpl in H; [|done].
  destruct (if Qlt_bool w _ then _ else _) as [d2|] eqn:E2;
    simpl in H; [|done].
  assert (∀ k, k ≠ "weight"%string → d2 !! k = d1 !! k) as F2.
  { destruct (Qlt_bool w _); [|by injection E2 as <-].
    destruct (py_div _ _) as [wp|]; simpl in E2; [|done].
    exact (Hstep true (as_num len) (λ l, l * wp * 10)%Q _ _ E2). }
  clear E2.
  destruct (get_num d2 "grade" 0) as [gr|]; simpl in H; [|done].
  destruct (if Qlt_bool _ (Qabs gr) then _ else _) as [d3|] eqn:E3;
    simpl in H; [|done].
  assert (∀ k, k ≠ "weight"%string → d3 !! k = d2 !! k) as F3.
  { destruct (Qlt_bool _ (Qabs gr)); [|by injection E3 as <-].
    destruct (py_div _ _) as [sp|]; simpl in E3; [|done].
    exact (Hstep true (as_num len) (λ l, l * sp * 20)%Q _ _ E3). }
  injection H as <-. exists d3.
  assert (∀ k, k ≠ "weight"%string → d3 !! k = d !! k) as F.
  { intros k Hk. rewrite F3, F2, F1, F0 by done. done. }
  split; [|exact F]. by rewrite (F "obstacle_score").
Qed.

Lemma init_edge_original p d d' :
  init_edge p d = Some d' →
  d' !! "original_obstacle_score"
  = Some (default (VNum 0) (d !! "obstacle_score"))
  ∧ d' !! "obstacle_score" = d !! "obstacle_score".
Proof.
  intros H. apply init_edge_shape in H as (d3 & -> & F). split.
  - apply lookup_insert_eq.
  - rewrite lookup_insert_ne by done. by apply F.
Qed.

Lemma calculate_obstacle_weights_inv
    (nearest_edges : graph → Q → Q → option (list (edge_key * Q)))
    (g g' : graph) obstacles prefs :
  calculate_obstacle_weights nearest_edges g obstacles prefs = Some g' →
  ∃ g0, init_weights (default no_preferences prefs) g = Some g0
        ∧ g' = foldl (apply_obstacle nearest_edges) g0 obstacles.
Proof.
  unfold calculate_obstacle_weights. intros H.
  apply bind_Some in H as (g0 & H0 & H). apply (inj Some) in H as <-.
  by exists g0.
Qed.

(** The three stages of an edge: before the call, after the per-edge loop,
    and in the result. *)
Lemma calculate_obstacle_weights_stages
    (P : attrs → attrs → Prop)
    (nearest_edges : graph → Q → Q → option (list (edge_key * Q)))
    (g g' : graph) obstacles prefs :
  calculate_obstacle_weights nearest_edges g obstacles prefs = Some g' →
  (∀ g0, edges_rel P (edges g0)
           (edges (foldl (apply_obstacle nearest_edges) g0 obstacles))) →
  ∀ e d', edges g' !! e = Some d' →
    ∃ d d0, edges g !! e = Some d
            ∧ init_edge (default no_preferences prefs) d = Some d0
            ∧ P d0 d'.
Proof.
  intros H HP e d' Hd'.
  apply calculate_obstacle_weights_inv in H as (g0 & Hi & ->).
  apply init_weights_rel in Hi as [_ Hrel].
  destruct (edges_rel_lookup_r _ _ _ _ _ (HP g0) Hd') as (d0 & Hd0 & HPd).
  destruct (edges_rel_lookup_r _ _ _ _ _ Hrel Hd0) as (d & Hd & Hinit).
  by exists d, d0.
Qed.

(** X10: after the weight calculator, [original_obstacle_score] of every
    edge is the obstacle score the edge had before the call (0 when it had
    none), whatever the obstacles did to [obstacle_score]. *)
Theorem original_score_snapshot
    (nearest_edges : graph → Q → Q → option (list (edge_key * Q)))
    (g g' : graph) (obstacles : list obstacle) (prefs : option preferences) :
  calculate_obstacle_weights nearest_edges g obstacles prefs = Some g' →
  ∀ e d', edges g' !! e = Some d' →
    ∃ d, edges g !! e = Some d
         ∧ d' !! "original_obstacle_score"
           = Some (default (VNum 0) (d !! "obstacle_score")).
Proof.
  intros H e d' Hd'.
  destruct (calculate_obstacle_weights_stages keeps_original _ _ _ _ _ H)
    with (e := e) (d' := d') as (d & d0 & Hd & Hi & Hk); [|done|].
  { intros g0.
    apply (obstacles_rel keeps_original (λ _, True)); try done.
    - intros a b c Hab Hbc. unfold keeps_original in *. congruence.
    - apply keeps_original_weight.
    - apply keeps_original_score.
    - apply Forall_forall. by intros ob _ dist _. }
  exists d. split; [done|]. rewrite Hk. by apply (init_edge_original _ _ _ Hi).
Qed.

Lemma score_grows_obstacles
    (nearest_edges : graph → Q → Q → option (list (edge_key * Q)))
    obstacles :
  Forall positive_score obstacles →
  ∀ g0, edges_rel score_grows (edges g0)
          (edges (foldl (apply_obstacle nearest_edges) g0 obstacles)).
Proof.
  intros Hpos.
  apply (obstacles_step score_grows (λ pen, (0 <= pen)%Q) score_grows_refl
           score_grows_trans score_grows_half score_grows_full).
  eapply Forall_impl; [exact Hpos|]. intros ob Hob dist Hd. simpl.
  apply Qmult_le_0_compat;
    [by apply obstacle_weight_nonneg | by apply distance_factor_nonneg].
Qed.

Lemma keeps_original_obstacles
    (nearest_edges : graph → Q → Q → option (list (edge_key * Q)))
    obstacles :
  ∀ g0, edges_rel keeps_original (edges g0)
          (edges (foldl (apply_obstacle nearest_edges) g0 obstacles)).
Proof.
  intros g0.
  apply (obstacles_rel keeps_original (λ _, True)); try done.
  - intros a b c Hab Hbc. unfold keeps_original in *. congruence.
  - apply keeps_original_weight.
  - apply keeps_original_score.
  - apply Forall_forall. by intros ob _ dist _.
Qed.


Lemma default_score_num (d : attrs) s :
  get_num d "obstacle_score" 0 = Some s ↔
  as_num (default (VNum 0) (d !! "obstacle_score")) = Some s.
Proof. unfold get_num. by destruct (d !! "obstacle_score"). Qed.

(** X11: with obstacles of positive [obstacleScore], the obstacle score
    of every edge of the result is at least its
    [original_obstacle_score]. *)
Theorem score_at_least_original
    (nearest_edges : graph → Q → Q → option (list (edge_key * Q)))
    (g g' : graph) (obstacles : list obstacle) (prefs : option preferences) :
  calculate_obstacle_weights nearest_edges g obstacles prefs = Some g' →
  Forall positive_score obstacles →
  ∀ e d' s0, edges g' !! e = Some d' →
    get_num d' "original_obstacle_score" 0 = Some s0 →
    ∃ s, get_num d' "obstacle_score" 0 = Some s ∧ (s0 <= s)%Q.
Proof.
  intros H Hpos e d' s0 Hd' Hs0.
  destruct (calculate_obstacle_weights_stages
              (λ a b, score_grows a b ∧ keeps_original a b) _ _ _ _ _ H)
    with (e := e) (d' := d') as (d & d0 & Hd & Hi & Hgrow & Hk); [|done|].
  { intros g0 e0.
    pose proof (score_grows_obstacles nearest_edges obstacles Hpos g0 e0) as H1.
    pose proof (keeps_original_obstacles nearest_edges obstacles g0 e0) as H2.
    destruct H1; inversion H2; subst; by constructor. }
  destruct (init_edge_original _ _ _ Hi) as [Ho Hs].
  apply Hgrow. unfold get_num at 1. rewrite Hs. fold (get_num d "obstacle_score" 0).
  apply default_score_num. unfold get_num in Hs0. rewrite Hk, Ho in Hs0.
  exact Hs0.
Qed.

Lemma score_at_least_original_witness :
  ∃ g',
    calculate_obstacle_weights lookup_at_50
      (one_edge_graph (plain_edge 10 0 2)) [stairs_obstacle] None = Some g'
    ∧ ∀ e d' s0, edges g' !! e = Some d' →
        get_num d' "original_obstacle_score" 0 = Some s0 →
        ∃ s, get_num d' "obstacle_score" 0 = Some s ∧ (s0 <= s)%Q.
Proof.
  assert (succeeds (calculate_obstacle_weights lookup_at_50
                      (one_edge_graph (plain_edge 10 0 2))
                      [stairs_obstacle] None) = true) as Hrun
    by (vm_compute; reflexivity).
  destruct (calculate_obstacle_weights lookup_at_50
              (one_edge_graph (plain_edge 10 0 2)) [stairs_obstacle] None)
    as [g'|] eqn:E; [clear Hrun|discriminate Hrun].
  exists g'. split; [reflexivity|].
  apply (score_at_least_original _ _ _ _ _ E). repeat constructor.
Defined.

Lemma original_score_snapshot_witness :
  ∃ g',
    calculate_obstacle_weights lookup_at_50
      (one_edge_graph (steps_edge 10)) [stairs_obstacle] None = Some g'
    ∧ ∀ e d', edges g' !! e = Some d' →
        ∃ d, edges (one_edge_graph (steps_edge 10)) !! e = Some d
             ∧ d' !! "original_obstacle_score"
               = Some (default (VNum 0) (d !! "obstacle_score")).
Proof.
  assert (succeeds (calculate_obstacle_weights lookup_at_50
                      (one_edge_graph (steps_edge 10))
                      [stairs_obstacle] None) = true) as Hrun
    by (vm_compute; reflexivity).
  destruct (calculate_obstacle_weights lookup_at_50
              (one_edge_graph (steps_edge 10)) [stairs_obstacle] None)
    as [g'|] eqn:E; [clear Hrun|discriminate Hrun].
  exists g'. split; [reflexivity|].
  exact (original_score_snapshot _ _ _ _ _ E).
Defined.



(** ** The penalties of a list of obstacles add up *)







(** ** A look-up that names a missing edge *)

Lemma add_penalty_lookup_none e0 pen es e :
  es !! e = None → (add_penalty e0 pen es).1 !! e = None.
Proof.
  intros He. unfold add_penalty.
  destruct (es !! e0) as [d|] eqn:He0; [|done].
  assert (e0 ≠ e) as Hne by congruence.
  destruct (add_num "weight" pen d) as [d1|]; [|done].
  destruct (get_num d1 "obstacle_score" 0); simpl;
    by rewrite lookup_insert_ne.
Qed.

(** X15: when the look-up names, within range, an edge that is not in
    the graph, the loop over the look-up result stops there: the edges
    listed before it keep their penalty, the edges listed after it get
    none from this obstacle. *)
Theorem missing_edge_cuts_obstacle (w : Q) (l1 l2 : list (edge_key * Q))
    (e : edge_key) (dist : Q) (es : gmap (Z * Z * Z) attrs) :
  es !! e = None → (dist <= 100)%Q →
  apply_penalties w (l1 ++ (e, dist) :: l2) es = apply_penalties w l1 es.
Proof.
  intros He Hd. revert es He.
  induction l1 as [|[e1 d1] r IH]; intros es He; cbn [app apply_penalties].
  - apply Qle_bool_iff in Hd. unfold MAX_OBSTACLE_INFLUENCE. rewrite Hd.
    unfold add_penalty. by rewrite He.
  - destruct (Qle_bool d1 MAX_OBSTACLE_INFLUENCE); [|by apply IH].
    pose proof (add_penalty_lookup_none e1 (w * distance_factor d1)%Q es e He)
      as Hnone.
    destruct (add_penalty e1 _ es) as [es' [|]]; [|done].
    by apply IH.
Qed.





Lemma missing_edge_cuts_obstacle_witness :
  apply_penalties 1000
    ([ ((1, 2, 0), 50%Q) ] ++ ((9, 9, 0), 10%Q) :: [ ((1, 2, 0), 50%Q) ])
    (edges (one_edge_graph weighted_plain_edge))
  = apply_penalties 1000 [ ((1, 2, 0), 50%Q) ]
      (edges (one_edge_graph weighted_plain_edge)).
Proof.
  apply (missing_edge_cuts_obstacle 1000 [ ((1, 2, 0), 50%Q) ]
           [ ((1, 2, 0), 50%Q) ] (9, 9, 0) 10
           (edges (one_edge_graph weighted_plain_edge))).
  - reflexivity.
  - by compute.
Defined.

(** ** Route planner: the shape of the result *)

Lemma route_points_of_lookup g path ps :
  route_points_of g path = Some ps →
  length ps = length path
  ∧ ∀ i node, path !! i = Some node →
      ∃ nd lat lng,
        nodes g !! node = Some nd ∧ nd !! "y" = Some lat
        ∧ nd !! "x" = Some lng ∧ ps !! i = Some (Point lat lng).
Proof.
  revert ps. induction path as [|n r IH]; intros ps H; cbn [route_points_of] in H.
  - apply (inj Some) in H as <-. split; [done|]. intros i node Hi. done.
  - apply bind_Some in H as (nd & Hnd & H).
    apply bind_Some in H as (lat & Hlat & H).
    apply bind_Some in H as (lng & Hlng & H).
    apply bind_Some in H as (ps' & Hps & H).
    apply (inj Some) in H as <-.
    destruct (IH ps' Hps) as [Hlen Hall]. split; [simpl; by rewrite Hlen|].
    intros [|i] node Hi; simpl in Hi.
    + injection Hi as <-. by exists nd, lat, lng.
    + apply (Hall i node Hi).
Qed.

Lemma route_points_of_total g path :
  Forall (has_coords g) path → is_Some (route_points_of g path).
Proof.
  induction 1 as [|n r (nd & lat & lng & Hnd & Hlat & Hlng) _ [ps IH]];
    cbn [route_points_of]; [by eexists|].
  rewrite Hnd. cbn [mbind option_bind]. rewrite Hlat. cbn [mbind option_bind].
  rewrite Hlng. cbn [mbind option_bind]. rewrite IH. by eexists.
Qed.

Lemma find_accessible_route_shape
    (nearest_nodes : graph → Q → Q → option Z)
    (g : graph) (origin destination : Q * Q) (r : route) :
  find_accessible_route nearest_nodes g origin destination = Some r →
  ∃ s t path L b start finish,
    nearest_nodes g origin.2 origin.1 = Some s
    ∧ nearest_nodes g destination.2 destination.1 = Some t
    ∧ shortest_path g s t = Some path
    ∧ route_points_of g path = Some (points r)
    ∧ path_stats g path = Some (L, b)
    ∧ head (points r) = Some start
    ∧ last (points r) = Some finish
    ∧ r = Route (points r) (py_round2 (L / 1000))
                (format_duration (duration_minutes_of L)) b
                [Step "Follow the accessible path."
                      (dec (py_round L) ++ " m")
                      (format_duration (duration_minutes_of L)) start finish].
Proof.
  intros H. unfold find_accessible_route in H.
  apply bind_Some in H as (s & Hs & H).
  apply bind_Some in H as (t & Ht & H).
  apply bind_Some in H as (path & Hp & H).
  apply bind_Some in H as (pts & Hpts & H).
  apply bind_Some in H as ([L b] & Hst & H).
  apply bind_Some in H as (start & Hh & H).
  apply bind_Some in H as (finish & Hl & H).
  apply (inj Some) in H as <-. cbn [points fst snd].
  by exists s, t, path, L, b, start, finish.
Qed.

(** X16: a returned route follows a path of the graph from the node
    nearest the origin to the node nearest the destination: it has one
    point per node of the path, the i-th point holds the [y] and [x] of the
    i-th node, and its single step runs from the first point to the last
    with the duration of the route. *)
Theorem route_follows_path
    (nearest_nodes : graph → Q → Q → option Z)
    (g : graph) (origin destination : Q * Q) (r : route) :
  find_accessible_route nearest_nodes g origin destination = Some r →
  ∃ s t path,
    nearest_nodes g origin.2 origin.1 = Some s
    ∧ nearest_nodes g destination.2 destination.1 = Some t
    ∧ walk g s t path
    ∧ length (points r) = length path
    ∧ (∀ i node, path !! i = Some node →
         ∃ nd lat lng,
           nodes g !! node = Some nd ∧ nd !! "y" = Some lat
           ∧ nd !! "x" = Some lng ∧ points r !! i = Some (Point lat lng))
    ∧ ∃ st, steps r = [st]
            ∧ head (points r) = Some (startLocation st)
            ∧ last (points r) = Some (endLocation st)
            ∧ step_duration st = duration r.
Proof.
  intros H. apply find_accessible_route_shape in H
    as (s & t & path & L & b & start & finish
        & Hs & Ht & Hp & Hpts & _ & Hh & Hl & Hr).
  exists s, t, path. split; [done|]. split; [done|].
  split; [by apply shortest_path_sound|].
  destruct (route_points_of_lookup _ _ _ Hpts) as [Hlen Hall].
  split; [done|]. split; [done|].
  rewrite Hr. cbn [steps points duration]. eexists. split; [done|].
  cbn [startLocation endLocation step_duration]. by rewrite Hh, Hl.
Qed.

Lemma route_follows_path_witness :
  ∃ r s t path,
    find_accessible_route nearest_of_two long_edge_graph
      (0%Q, 0%Q) (0%Q, 1 # 1000) = Some r
    ∧ walk long_edge_graph s t path
    ∧ length (points r) = length path.
Proof.
  assert (succeeds (find_accessible_route nearest_of_two long_edge_graph
                      (0%Q, 0%Q) (0%Q, 1 # 1000)) = true) as Hrun
    by (vm_compute; reflexivity).
  destruct (find_accessible_route nearest_of_two long_edge_graph
              (0%Q, 0%Q) (0%Q, 1 # 1000)) as [r|] eqn:E;
    [clear Hrun|discriminate Hrun].
  destruct (route_follows_path _ _ _ _ _ E)
    as (s & t & path & _ & _ & Hw & Hlen & _).
  exists r, s, t, path. split; [reflexivity|]. exact (conj Hw Hlen).
Defined.

Lemma route_stats_missing g :
  ∀ rest u L b i a c,
    (u :: rest) !! i = Some a → (u :: rest) !! S i = Some c →
    edges g !! (a, c, 0) = None →
    route_stats g u rest L b = None.
Proof.
  induction rest as [|v rest IH]; intros u L b i a c Ha Hc He.
  - destruct i; done.
  - cbn [route_stats]. destruct i as [|i].
    + injection Ha as ->. injection Hc as ->. by rewrite He.
    + destruct (edges g !! (u, v, 0)) as [d|]; [|done]. cbn [mbind option_bind].
      destruct (get_num d "length" 0); [|done]. cbn [mbind option_bind].
      destruct (get_num d "obstacle_score" 0) as [sc|]; [|done].
      cbn [mbind option_bind].
      destruct (if Qlt_bool 0 sc then _ else _) as [hit|]; [|done].
      cbn [mbind option_bind]. by eapply (IH v _ _ i a c).
Qed.

(** X17: when two consecutive nodes of the path found are not joined by
    an edge of key 0, the planner returns no route, although a path
    exists. *)
Theorem missing_key_zero_fails
    (nearest_nodes : graph → Q → Q → option Z)
    (g : graph) (origin destination : Q * Q) (s t : Z) (path : list Z)
    (i : nat) (u v : Z) :
  nearest_nodes g origin.2 origin.1 = Some s →
  nearest_nodes g destination.2 destination.1 = Some t →
  shortest_path g s t = Some path →
  path !! i = Some u → path !! S i = Some v →
  edges g !! (u, v, 0) = None →
  find_accessible_route nearest_nodes g origin destination = None.
Proof.
  intros Hs Ht Hp Hu Hv He. unfold find_accessible_route.
  rewrite Hs. cbn [mbind option_bind]. rewrite Ht. cbn [mbind option_bind].
  rewrite Hp. cbn [mbind option_bind].
  destruct (route_points_of g path); [|done]. cbn [mbind option_bind].
  destruct path as [|n rest]; [done|]. cbn [path_stats].
  by rewrite (route_stats_missing g rest n 0 false i u v Hu Hv He).
Qed.

Lemma missing_key_zero_fails_witness :
  shortest_path key_one_graph 1 2 = Some [1; 2]
  ∧ find_accessible_route nearest_of_two key_one_graph
      (0%Q, 0%Q) (0%Q, 1 # 1000) = None.
Proof.
  assert (shortest_path key_one_graph 1 2 = Some [1; 2]) as Hp
    by (vm_compute; reflexivity).
  split; [exact Hp|].
  apply (missing_key_zero_fails nearest_of_two key_one_graph
           (0%Q, 0%Q) (0%Q, 1 # 1000) 1 2 [1; 2] 0%nat 1 2);
    first [exact Hp | reflexivity].
Defined.





Lemma shortest_path_same g s :
  s ∈ dom (nodes g) → shortest_path g s s = Some [s].
Proof.
  intros Hs. unfold shortest_path. rewrite decide_True by done.
  cbn [dijkstra_loop]. unfold pick_min. rewrite map_to_list_singleton.
  cbn [foldr fst snd]. rewrite decide_False by apply not_elem_of_empty.
  rewrite decide_True by done. cbn [mbind option_bind].
  by rewrite lookup_singleton_eq.
Qed.

(** X20: when origin and destination are nearest to the same node, the
    planner returns a route of one point, with distance 0, duration
    ["0 mins"], no obstacles and a step of ["0 m"]. *)
Theorem same_node_route
    (nearest_nodes : graph → Q → Q → option Z)
    (g : graph) (origin destination : Q * Q) (s : Z)
    (nd : attrs) (lat lng : value) :
  nearest_nodes g origin.2 origin.1 = Some s →
  nearest_nodes g destination.2 destination.1 = Some s →
  nodes g !! s = Some nd → nd !! "y" = Some lat → nd !! "x" = Some lng →
  ∃ r, find_accessible_route nearest_nodes g origin destination = Some r
       ∧ points r = [Point lat lng]
       ∧ (distance r == 0)%Q
       ∧ duration r = "0 mins"%string
       ∧ hasObstacles r = false
       ∧ step_distance <$> steps r = ["0 m"%string].
Proof.
  intros Ho Hd Hnd Hlat Hlng. unfold find_accessible_route.
  rewrite Ho. cbn [mbind option_bind]. rewrite Hd. cbn [mbind option_bind].
  rewrite shortest_path_same by (apply elem_of_dom; by eexists).
  cbn [mbind option_bind route_points_of]. rewrite Hnd.
  cbn [mbind option_bind]. rewrite Hlat. cbn [mbind option_bind].
  rewrite Hlng. cbn [mbind option_bind path_stats route_stats head last fst snd].
  eexists. split; [reflexivity|]. cbn [points distance duration hasObstacles steps].
  split; [done|]. split; [vm_compute; reflexivity|].
  split; [vm_compute; reflexivity|]. split; [done|].
  vm_compute. reflexivity.
Qed.

Lemma same_node_route_witness :
  ∃ r, find_accessible_route nearest_of_two long_edge_graph
         (0%Q, 0%Q) (1%Q, 0%Q) = Some r
       ∧ points r = [Point (VNum 0) (VNum 0)]
       ∧ (distance r == 0)%Q
       ∧ duration r = "0 mins"%string
       ∧ hasObstacles r = false
       ∧ step_distance <$> steps r = ["0 m"%string].
Proof.
  apply (same_node_route nearest_of_two long_edge_graph (0%Q, 0%Q) (1%Q, 0%Q)
           1 (plain_node 0 0)); reflexivity.
Defined.

Lemma hops_snoc p u t :
  last p = Some u → hops (p ++ [t]) = hops p ++ [(u, t)].
Proof.
  induction p as [|a [|b r] IH]; intros Hl; [done| |].
  - injection Hl as ->. done.
  - change (hops ((a :: b :: r) ++ [t]))
      with ((a, b) :: hops ((b :: r) ++ [t])).
    change (hops (a :: b :: r)) with ((a, b) :: hops (b :: r)).
    rewrite IH by done. done.
Qed.

Lemma walk_last g s t p : walk g s t p → last p = Some t.
Proof. destruct 1; [done|]. apply last_snoc. Qed.

Lemma walk_hops g s t p :
  walk g s t p → ∀ u v, (u, v) ∈ hops p → has_edge g u v.
Proof.
  induction 1 as [|u t p Hw IH He]; intros a b Hin.
  - by apply elem_of_nil in Hin.
  - rewrite (hops_snoc p u t (walk_last _ _ _ _ Hw)) in Hin.
    apply elem_of_app in Hin as [Hin|Hin]; [by apply IH|].
    by apply list_elem_of_singleton in Hin as [= -> ->].
Qed.

Lemma walk_nodes g s t p :
  walk g s t p → ∀ v, v ∈ p → v = s ∨ ∃ u, has_edge g u v.
Proof.
  induction 1 as [|u t p Hw IH He]; intros v Hin.
  - apply list_elem_of_singleton in Hin. by left.
  - apply elem_of_app in Hin as [Hin|Hin]; [by apply IH|].
    apply list_elem_of_singleton in Hin as ->. right. by exists u.
Qed.

Lemma route_stats_total g :
  ∀ rest u L b,
    (∀ x y, (x, y) ∈ hops (u :: rest) → key_zero_ok g x y) →
    is_Some (route_stats g u rest L b).
Proof.
  induction rest as [|v rest IH]; intros u L b Hok; cbn [route_stats].
  - by eexists.
  - change (hops (u :: v :: rest)) with ((u, v) :: hops (v :: rest)) in Hok.
    destruct (Hok u v) as (d & Hd & [len Hl] & [sc Hsc] & [orig Ho]);
      [by apply elem_of_cons; left|].
    rewrite Hd. cbn [mbind option_bind]. rewrite Hl. cbn [mbind option_bind].
    rewrite Hsc. cbn [mbind option_bind]. rewrite Ho.
    assert (∀ hit : option bool, is_Some hit →
              is_Some (hit ≫= λ hit, route_stats g v rest (L + len)
                                       (if hit : bool then true else b)))
      as Hrest.
    { intros hit [h ->]. cbn [mbind option_bind]. apply IH.
      intros x y Hin. apply Hok, elem_of_cons. by right. }
    apply Hrest. destruct (Qlt_bool 0 sc); by eexists.
Qed.

(** X21: the planner returns a route whenever the graph has a path
    between the two nearest nodes, provided the nodes have coordinates,
    the edge costs are non-negative numbers, and every pair of joined
    nodes has an edge of key 0 with numeric length and scores. *)
Theorem find_accessible_route_total
    (nearest_nodes : graph → Q → Q → option Z)
    (g : graph) (origin destination : Q * Q) (s t : Z) :
  nearest_nodes g origin.2 origin.1 = Some s →
  nearest_nodes g destination.2 destination.1 = Some t →
  has_coords g s → t ∈ dom (nodes g) →
  (∀ u v, has_edge g u v → has_coords g v ∧ key_zero_ok g u v) →
  nonneg_costs g →
  (∃ p, walk g s t p) →
  is_Some (find_accessible_route nearest_nodes g origin destination).
Proof.
  intros Hs Ht Hcs Htn Hedges Hcost Hwalk. unfold find_accessible_route.
  assert (numeric_costs g) as Hnum.
  { intros e d Hd. destruct (Hcost e d Hd) as (c & -> & _). by eexists. }
  rewrite Hs. cbn [mbind option_bind]. rewrite Ht. cbn [mbind option_bind].
  destruct (shortest_path_complete g s t Hnum) as [path Hp]; [|done..|].
  { destruct Hcs as (nd & _ & _ & Hnd & _). apply elem_of_dom. by eexists. }
  rewrite Hp. cbn [mbind option_bind].
  pose proof (shortest_path_sound _ _ _ _ Hp) as Hw.
  destruct (route_points_of_total g path) as [pts Hpts].
  { apply Forall_forall. intros v Hv.
    destruct (walk_nodes _ _ _ _ Hw v Hv) as [->|[u Hu]]; [done|].
    by apply (Hedges u v). }
  rewrite Hpts. cbn [mbind option_bind].
  assert (is_Some (path_stats g path)) as [st Hst].
  { destruct path as [|u rest]; [by eexists|]. cbn [path_stats].
    apply route_stats_total. intros x y Hin.
    apply (Hedges x y). by eapply walk_hops. }
  rewrite Hst. cbn [mbind option_bind].
  destruct (route_points_of_lookup _ _ _ Hpts) as [Hlen _].
  destruct pts as [|p0 pts].
  { apply walk_last in Hw. by destruct path. }
  cbn [head mbind option_bind].
  destruct (last (p0 :: pts)) as [pl|] eqn:El.
  - by eexists.
  - by apply last_None in El.
Qed.

Lemma find_accessible_route_total_witness :
  is_Some (find_accessible_route nearest_of_two long_edge_graph
             (0%Q, 0%Q) (0%Q, 1 # 1000)).
Proof.
  apply (find_accessible_route_total nearest_of_two long_edge_graph
           (0%Q, 0%Q) (0%Q, 1 # 1000) 1 2).
  - reflexivity.
  - reflexivity.
  - by exists (plain_node 0 0), (VNum 0), (VNum 0).
  - apply elem_of_dom. by eexists.
  - intros u v (k & d & H). apply one_edge_graph_lookup in H as [[= -> -> ->] ->].
    split.
    + by exists (plain_node (1 # 1000) 0), (VNum 0), (VNum (1 # 1000)).
    + eexists. split; [reflexivity|]. repeat split; by eexists.
  - intros e d H. apply one_edge_graph_lookup in H as [_ ->].
    by exists 4950%Q.
  - exists ([1] ++ [2]). eapply walk_step; [constructor|].
    eexists 0, _. reflexivity.
Defined.
